(** * go-loggregator: the v2 ingress client (ingress_client.go)

    A shallow embedding of the batching client: the record constructors
    ([EmitLog], [EmitGauge], [EmitCounter] and their options), the bounded
    channel that carries envelopes to the sender goroutine, and the
    [startSender] / [flush] / [emit] loop with its flush timer and its
    outbound stream.

    The Go runtime pieces the code relies on (a buffered channel, a
    [time.Timer], the conversions between [uint] and [int]) are modelled
    in the modules [GoInt], [Chan] and [Timer]; the gRPC transport and the
    logger are the environment: every call made to them is recorded, and
    the replies of the transport are read from an oracle. *)

From Stdlib Require Import ZArith List String Bool Lia.
From stdpp Require Import base option list gmap strings fin_maps.

Local Open Scope Z_scope.

(* ===================================================================== *)
(** ** Go integers *)
(* ===================================================================== *)

Module GoInt.

(** [int] and [uint] are 64 bits wide (amd64, arm64). *)
Definition bits : Z := 64.

Definition uint_range (u : Z) : Prop := 0 <= u < 2 ^ bits.

(** The conversion [int(u)] of a [uint]: the same bit pattern read in two's
    complement. *)
Definition int_of_uint (u : Z) : Z :=
  (u + 2 ^ (bits - 1)) mod 2 ^ bits - 2 ^ (bits - 1).

(** [len(xs)] as an [int]. *)
Definition len {A : Type} (xs : list A) : Z := Z.of_nat (length xs).

End GoInt.

(* ===================================================================== *)
(** ** Go channels *)
(* ===================================================================== *)

Module Chan.

(** What a channel operation does to the goroutine that runs it. *)
Inductive result (A : Type) : Type :=
| Done (a : A)
| Blocks
| Panics.
Arguments Done {A} a.
Arguments Blocks {A}.
Arguments Panics {A}.

(** A buffered channel [make(chan T, cap)]. *)
Record t (A : Type) : Type := mk {
  buf : list A;
  cap : nat;
  closed : bool
}.
Arguments mk {A} buf cap closed.
Arguments buf {A} _.
Arguments cap {A} _.
Arguments closed {A} _.

Definition make {A : Type} (n : nat) : t A := mk [] n false.

(** [ch <- x] *)
Definition send {A : Type} (ch : t A) (x : A) : result (t A) :=
  if closed ch then Panics
  else if (length (buf ch) <? cap ch)%nat
       then Done (mk (buf ch ++ [x]) (cap ch) (closed ch))
       else Blocks.

(** [x := <-ch]; a closed and drained channel yields the zero value, here
    [None] for the nil pointer. *)
Definition recv {A : Type} (ch : t A) : result (option A * t A) :=
  match buf ch with
  | x :: rest => Done (Some x, mk rest (cap ch) (closed ch))
  | [] => if closed ch then Done (None, ch) else Blocks
  end.

(** [close(ch)] *)
Definition close {A : Type} (ch : t A) : result (t A) :=
  if closed ch then Panics else Done (mk (buf ch) (cap ch) true).

End Chan.

(* ===================================================================== *)
(** ** Go timers *)
(* ===================================================================== *)

Module Timer.

(** A [time.Timer] with its channel [C] of capacity one: [deadline] is the
    instant at which a running timer will fire, [pending] says that a
    value sits unreceived in [C]. *)
Record t : Type := mk {
  deadline : option Z;
  pending : bool
}.

(** The timer as seen at instant [now]: a running timer whose deadline
    has been reached has fired, which puts a value in [C] unless one is
    already there. *)
Definition at_time (now : Z) (tm : t) : t :=
  match deadline tm with
  | Some d => if d <=? now then mk None true else tm
  | None => tm
  end.

(** [time.NewTimer(d)] *)
Definition NewTimer (now d : Z) : t := mk (Some (now + d)) false.

(** [t.Stop()]: reports whether the call stopped a running timer. *)
Definition Stop (now : Z) (tm : t) : bool * t :=
  let tm := at_time now tm in
  match deadline tm with
  | Some _ => (true, mk None (pending tm))
  | None => (false, tm)
  end.

(** [t.Reset(d)]; a value already in [C] stays there. *)
Definition Reset (now d : Z) (tm : t) : t :=
  let tm := at_time now tm in
  mk (Some (now + d)) (pending tm).

(** [<-t.C]: [None] when nothing is there to receive. A stopped timer
    with an empty channel never delivers. *)
Definition recv (now : Z) (tm : t) : option t :=
  let tm := at_time now tm in
  if pending tm then Some (mk (deadline tm) false) else None.

End Timer.

(* ===================================================================== *)
(** ** Envelopes (loggregator_v2) *)
(* ===================================================================== *)

(** A [float64], carried as its bit pattern: the client never computes on it. *)
Definition float64 : Type := Z.

Inductive Log_Type : Type := Log_OUT | Log_ERR.

Record GaugeValue : Type := {
  Unit : string;
  Value : float64
}.

(** The [Message] oneof of an envelope, for the three kinds built here. *)
Inductive isEnvelope_Message : Type :=
| Envelope_Log (Payload : string) (Type_ : Log_Type)
| Envelope_Counter (Name : string) (Delta : Z)
| Envelope_Gauge (Metrics : gmap string GaugeValue).

Record Envelope : Type := {
  Timestamp : Z;
  SourceId : string;
  InstanceId : string;
  Message : isEnvelope_Message;
  Tags : gmap string string
}.

Definition with_Tags (f : gmap string string -> gmap string string)
  (e : Envelope) : Envelope :=
  {| Timestamp := Timestamp e; SourceId := SourceId e;
     InstanceId := InstanceId e; Message := Message e;
     Tags := f (Tags e) |}.

Definition with_Message (m : isEnvelope_Message) (e : Envelope) : Envelope :=
  {| Timestamp := Timestamp e; SourceId := SourceId e;
     InstanceId := InstanceId e; Message := m; Tags := Tags e |}.

Definition with_Source (src inst : string) (e : Envelope) : Envelope :=
  {| Timestamp := Timestamp e; SourceId := src;
     InstanceId := inst; Message := Message e; Tags := Tags e |}.

(** [for k, v := range src { dst[k] = v }] *)
Definition copy_into (src dst : gmap string string) : gmap string string :=
  map_fold (fun k v acc => <[k := v]> acc) dst src.

(* ===================================================================== *)
(** ** Per-call options *)
(* ===================================================================== *)

(** The option constructors of the package. Each returns a closure over a
    [proto.Message]; the three emitters below only ever hand it a
    [*loggregator_v2.Envelope], so that is the branch of the type switch
    embedded here. *)
Inductive EmitOption : Type :=
| WithAppInfo (appID sourceType sourceInstance : string)
| WithStdout
| WithGaugeAppInfo (appID : string)
| WithGaugeValue (name : string) (value : float64) (unit : string)
| WithDelta (d : Z)
| WithEnvelopeTag (name value : string)
| WithEnvelopeTags (tags : gmap string string).

(** Running an option on an envelope; [None] is the nil-pointer panic of
    [e.GetLog()], [e.GetGauge()] or [e.GetCounter()] on an envelope of
    another kind. *)
Definition run_option (o : EmitOption) (e : Envelope) : option Envelope :=
  match o with
  | WithAppInfo appID sourceType sourceInstance =>
      Some (with_Tags (fun tg => <["source_type" := sourceType]> tg)
              (with_Source appID sourceInstance e))
  | WithStdout =>
      match Message e with
      | Envelope_Log p _ => Some (with_Message (Envelope_Log p Log_OUT) e)
      | _ => None
      end
  | WithGaugeAppInfo appID => Some (with_Source appID (InstanceId e) e)
  | WithGaugeValue name value unit =>
      match Message e with
      | Envelope_Gauge ms =>
          Some (with_Message
                  (Envelope_Gauge (<[name := {| Unit := unit; Value := value |}]> ms)) e)
      | _ => None
      end
  | WithDelta d =>
      match Message e with
      | Envelope_Counter n _ => Some (with_Message (Envelope_Counter n d) e)
      | _ => None
      end
  | WithEnvelopeTag name value =>
      Some (with_Tags (fun tg => <[name := value]> tg) e)
  | WithEnvelopeTags tags =>
      Some (with_Tags (copy_into tags) e)
  end.

(** [for _, o := range opts { o(e) }] *)
Fixpoint run_options (opts : list EmitOption) (e : Envelope) : option Envelope :=
  match opts with
  | [] => Some e
  | o :: rest =>
      match run_option o e with
      | Some e' => run_options rest e'
      | None => None
      end
  end.

(* ===================================================================== *)
(** ** The client *)
(* ===================================================================== *)

(** An [error], by its message. *)
Definition Err : Type := string.

(** The logger handed to the client, a value of the interface [Logger]:
    nil, which [WithLogger] accepts like any other; the default one,
    which writes to [ioutil.Discard]; or any other, known by a name. *)
Inductive Logger : Type :=
| NilLogger
| DiscardLogger
| UserLogger (name : string).

(** The fields of [IngressClient]. [sender] is the stream handle, [None]
    for nil, a live handle being named by the position of the
    [BatchSender] call that opened it in the history of transport calls.
    [closeErrors] is an unbuffered channel: [Some r] says that the sender
    goroutine stands at [c.closeErrors <- r] waiting for its receiver.
    The [client] field is the transport itself, part of the environment
    below. *)
Record IngressClient : Type := {
  sender : option nat;
  envelopes : Chan.t Envelope;
  tags : gmap string string;
  batchMaxSize : Z;
  batchFlushInterval : Z;
  addr : string;
  logger : Logger;
  closeErrors : option (option Err)
}.

Definition set_sender (h : option nat) (c : IngressClient) : IngressClient :=
  {| sender := h; envelopes := envelopes c; tags := tags c;
     batchMaxSize := batchMaxSize c;
     batchFlushInterval := batchFlushInterval c; addr := addr c;
     logger := logger c; closeErrors := closeErrors c |}.

Definition set_envelopes (ch : Chan.t Envelope) (c : IngressClient) : IngressClient :=
  {| sender := sender c; envelopes := ch; tags := tags c;
     batchMaxSize := batchMaxSize c;
     batchFlushInterval := batchFlushInterval c; addr := addr c;
     logger := logger c; closeErrors := closeErrors c |}.

Definition set_closeErrors (r : option (option Err)) (c : IngressClient) : IngressClient :=
  {| sender := sender c; envelopes := envelopes c; tags := tags c;
     batchMaxSize := batchMaxSize c;
     batchFlushInterval := batchFlushInterval c; addr := addr c;
     logger := logger c; closeErrors := r |}.

(** The client options. [maxSize] is a [uint], [d] a [time.Duration] in
    nanoseconds. *)
Inductive IngressOption : Type :=
| WithTag (name value : string)
| WithBatchMaxSize (maxSize : Z)
| WithBatchFlushInterval (d : Z)
| WithAddr (a : string)
| WithLogger (l : Logger).

Definition run_ingress_option (o : IngressOption) (c : IngressClient) : IngressClient :=
  match o with
  | WithTag name value =>
      {| sender := sender c; envelopes := envelopes c;
         tags := <[name := value]> (tags c);
         batchMaxSize := batchMaxSize c;
         batchFlushInterval := batchFlushInterval c; addr := addr c;
         logger := logger c; closeErrors := closeErrors c |}
  | WithBatchMaxSize maxSize =>
      {| sender := sender c; envelopes := envelopes c; tags := tags c;
         batchMaxSize := maxSize;
         batchFlushInterval := batchFlushInterval c; addr := addr c;
         logger := logger c; closeErrors := closeErrors c |}
  | WithBatchFlushInterval d =>
      {| sender := sender c; envelopes := envelopes c; tags := tags c;
         batchMaxSize := batchMaxSize c;
         batchFlushInterval := d; addr := addr c;
         logger := logger c; closeErrors := closeErrors c |}
  | WithAddr a =>
      {| sender := sender c; envelopes := envelopes c; tags := tags c;
         batchMaxSize := batchMaxSize c;
         batchFlushInterval := batchFlushInterval c; addr := a;
         logger := logger c; closeErrors := closeErrors c |}
  | WithLogger l =>
      {| sender := sender c; envelopes := envelopes c; tags := tags c;
         batchMaxSize := batchMaxSize c;
         batchFlushInterval := batchFlushInterval c; addr := addr c;
         logger := l; closeErrors := closeErrors c |}
  end.

(** [time.Second], in nanoseconds. *)
Definition Second : Z := 1000000000.

(** The struct literal at the head of [NewIngressClient]. *)
Definition default_client : IngressClient :=
  {| sender := None;
     envelopes := Chan.make 100;
     tags := ∅;
     batchMaxSize := 100;
     batchFlushInterval := Second;
     addr := "localhost:3458";
     logger := DiscardLogger;
     closeErrors := None |}.

(** [for _, o := range opts { o(c) }] *)
Definition configure (opts : list IngressOption) (c : IngressClient) : IngressClient :=
  fold_left (fun acc o => run_ingress_option o acc) opts c.

(** [NewIngressClient]: [dial] stands for [grpc.Dial] at the configured
    address. On success the caller gets the client, and [startSender] is
    started on it (see [boot]). *)
Definition NewIngressClient (dial : string -> option Err)
  (opts : list IngressOption) : Err + IngressClient :=
  let c := configure opts default_client in
  match dial (addr c) with
  | Some err => inl err
  | None => inr c
  end.

(* ===================================================================== *)
(** ** The emitters *)
(* ===================================================================== *)

(** [c.envelopes <- e] *)
Definition submit (c : IngressClient) (e : Envelope) : Chan.result IngressClient :=
  match Chan.send (envelopes c) e with
  | Chan.Done ch => Chan.Done (set_envelopes ch c)
  | Chan.Blocks => Chan.Blocks
  | Chan.Panics => Chan.Panics
  end.

(** The envelope an emitter has built when it reaches the channel send:
    the literal, the static tags copied in, then the options in order.
    [ts] is [time.Now().UnixNano()]. *)
Definition build (c : IngressClient) (ts : Z) (m : isEnvelope_Message)
  (opts : list EmitOption) : option Envelope :=
  let e := {| Timestamp := ts; SourceId := ""; InstanceId := "";
              Message := m; Tags := ∅ |} in
  let e := with_Tags (copy_into (tags c)) e in
  run_options opts e.

Definition log_envelope (c : IngressClient) (ts : Z) (message : string)
  (opts : list EmitOption) : option Envelope :=
  build c ts (Envelope_Log message Log_ERR) opts.

Definition gauge_envelope (c : IngressClient) (ts : Z)
  (opts : list EmitOption) : option Envelope :=
  build c ts (Envelope_Gauge ∅) opts.

Definition counter_envelope (c : IngressClient) (ts : Z) (name : string)
  (opts : list EmitOption) : option Envelope :=
  build c ts (Envelope_Counter name 1) opts.

(** The three emitters have no result in Go; what is returned here is
    the effect on the calling goroutine and on the client. *)
Definition emit_envelope (c : IngressClient) (oe : option Envelope) : Chan.result IngressClient :=
  match oe with
  | Some e => submit c e
  | None => Chan.Panics
  end.

Definition EmitLog (c : IngressClient) (ts : Z) (message : string)
  (opts : list EmitOption) : Chan.result IngressClient :=
  emit_envelope c (log_envelope c ts message opts).

Definition EmitGauge (c : IngressClient) (ts : Z)
  (opts : list EmitOption) : Chan.result IngressClient :=
  emit_envelope c (gauge_envelope c ts opts).

Definition EmitCounter (c : IngressClient) (ts : Z) (name : string)
  (opts : list EmitOption) : Chan.result IngressClient :=
  emit_envelope c (counter_envelope c ts name opts).

(** [CloseSend], first statement: [close(c.envelopes)]. *)
Definition CloseSend_close (c : IngressClient) : Chan.result IngressClient :=
  match Chan.close (envelopes c) with
  | Chan.Done ch => Chan.Done (set_envelopes ch c)
  | Chan.Blocks => Chan.Blocks
  | Chan.Panics => Chan.Panics
  end.

(** [CloseSend], second statement: [return <-c.closeErrors], a rendezvous
    with the sender goroutine. *)
Definition CloseSend_recv (c : IngressClient) : Chan.result (option Err * IngressClient) :=
  match closeErrors c with
  | Some r => Chan.Done (r, set_closeErrors None c)
  | None => Chan.Blocks
  end.

(* ===================================================================== *)
(** ** The environment: transport, logger, clock, callers *)
(* ===================================================================== *)

(** A call made on the gRPC transport, with the handle it was made on, its
    argument, and the error it returned ([None] for a nil error). *)
Inductive Call : Type :=
| BatchSender (r : option Err)
| Send (h : nat) (b : list Envelope) (r : option Err)
| StreamCloseSend (h : nat) (r : option Err).

(** What the transport answers to a call, and how long the call takes. *)
Record Reply : Type := {
  failure : option Err;
  took : N
}.

(** [now] is the clock, in nanoseconds. [transport] is the oracle: the
    call number [k] (counting from zero) is answered by [transport k].
    [calls] and [printed] are the histories of the transport calls and of
    the [Printf] calls made on the logger. [closers] counts the callers of
    [CloseSend] that wait on [closeErrors]; [closeResults] collects what
    [CloseSend] has returned. *)
Record World : Type := {
  now : Z;
  transport : nat -> Reply;
  calls : list Call;
  printed : list (Logger * string);
  closers : nat;
  closeResults : list (option Err)
}.

(** One transport call. *)
Definition rpc (mkcall : option Err -> Call) (w : World) : World * option Err :=
  let r := transport w (length (calls w)) in
  ({| now := now w + Z.of_N (took r);
      transport := transport w;
      calls := calls w ++ [mkcall (failure r)];
      printed := printed w;
      closers := closers w;
      closeResults := closeResults w |},
   failure r).

(** [c.logger.Printf(format, err)] with the format of [flush]; [None]
    is the panic of a method call on a nil interface value. *)
Definition Printf (l : Logger) (err : Err) (w : World) : option World :=
  match l with
  | NilLogger => None
  | _ =>
      Some {| now := now w;
              transport := transport w;
              calls := calls w;
              printed := printed w ++ [(l, "Error while flushing: " ++ err)%string];
              closers := closers w;
              closeResults := closeResults w |}
  end.

Definition elapse (dt : N) (w : World) : World :=
  {| now := now w + Z.of_N dt;
     transport := transport w;
     calls := calls w;
     printed := printed w;
     closers := closers w;
     closeResults := closeResults w |}.

Definition set_closers (n : nat) (rs : list (option Err)) (w : World) : World :=
  {| now := now w;
     transport := transport w;
     calls := calls w;
     printed := printed w;
     closers := n;
     closeResults := rs |}.

(* ===================================================================== *)
(** ** emit and flush *)
(* ===================================================================== *)

(** [func (c *IngressClient) emit(batch, close) error] *)
Definition emit (c : IngressClient) (w : World) (batch : list Envelope)
  (close : bool) : IngressClient * World * option Err :=
  let established :=
    match sender c with
    | Some h => (c, w, inl h)
    | None =>
        let h := length (calls w) in
        match rpc BatchSender w with
        | (w1, Some err) => (set_sender None c, w1, inr err)
        | (w1, None) => (set_sender (Some h) c, w1, inl h)
        end
    end in
  match established with
  | (c1, w1, inr err) => (c1, w1, Some err)
  | (c1, w1, inl h) =>
      match rpc (Send h batch) w1 with
      | (w2, Some err) => (set_sender None c1, w2, Some err)
      | (w2, None) =>
          if close then
            match rpc (StreamCloseSend h) w2 with
            | (w3, r) => (c1, w3, r)
            end
          else (c1, w2, None)
      end
  end.

(** [func (c *IngressClient) flush(batch, close) error]; [None] when the
    call of [Printf] panics. *)
Definition flush (c : IngressClient) (w : World) (batch : list Envelope)
  (close : bool) : option (IngressClient * World * option Err) :=
  match emit c w batch close with
  | (c1, w1, Some err) =>
      match Printf (logger c1) err w1 with
      | Some w2 => Some (c1, w2, Some err)
      | None => None
      end
  | (c1, w1, None) => Some (c1, w1, None)
  end.

(* ===================================================================== *)
(** ** startSender *)
(* ===================================================================== *)

(** The locals of the goroutine that runs [startSender]: the timer [t],
    the [batch], and whether the function has returned. *)
Record Sender : Type := {
  t : Timer.t;
  batch : list Envelope;
  returned : bool
}.

Record System : Type := {
  cl : IngressClient;
  gr : Sender;
  wd : World
}.

(** What a step does. [Deadlock] is the sender goroutine blocked for
    ever inside an iteration, at the receive [<-t.C] that nothing will
    serve. *)
Inductive Outcome : Type :=
| Next (s : System)
| NotEnabled
| Panic
| Deadlock.

(** The goroutine is at its [select]: it has not returned and does not
    wait on [closeErrors]. *)
Definition at_select (s : System) : bool :=
  negb (returned (gr s)) &&
  match closeErrors (cl s) with
  | None => true
  | Some _ => false
  end.

(** [if !t.Stop() { <-t.C }; t.Reset(c.batchFlushInterval)] *)
Definition restart_timer (now d : Z) (tm : Timer.t) : option Timer.t :=
  match Timer.Stop now tm with
  | (true, tm1) => Some (Timer.Reset now d tm1)
  | (false, tm1) =>
      match Timer.recv now tm1 with
      | Some tm2 => Some (Timer.Reset now d tm2)
      | None => None
      end
  end.

(** The [select] case [env := <-c.envelopes] and its body. *)
Definition sender_recv (s : System) : Outcome :=
  if at_select s then
    match Chan.recv (envelopes (cl s)) with
    | Chan.Done (None, _) =>
        (* env == nil *)
        match flush (cl s) (wd s) (batch (gr s)) true with
        | Some (c1, w1, r) =>
            Next {| cl := set_closeErrors (Some r) c1;
                    gr := gr s;
                    wd := w1 |}
        | None => Panic
        end
    | Chan.Done (Some env, ch) =>
        let c0 := set_envelopes ch (cl s) in
        let batch1 := batch (gr s) ++ [env] in
        if GoInt.len batch1 >=? GoInt.int_of_uint (batchMaxSize c0) then
          match flush c0 (wd s) batch1 false with
          | Some (c1, w1, _) =>
              match restart_timer (now w1) (batchFlushInterval c1) (t (gr s)) with
              | Some tm =>
                  Next {| cl := c1;
                          gr := {| t := tm; batch := []; returned := false |};
                          wd := w1 |}
              | None => Deadlock
              end
          | None => Panic
          end
        else
          Next {| cl := c0;
                  gr := {| t := t (gr s); batch := batch1; returned := false |};
                  wd := wd s |}
    | Chan.Blocks => NotEnabled
    | Chan.Panics => Panic
    end
  else NotEnabled.

(** The [select] case [<-t.C] and its body. *)
Definition sender_timer (s : System) : Outcome :=
  if at_select s then
    match Timer.recv (now (wd s)) (t (gr s)) with
    | None => NotEnabled
    | Some tm =>
        if 0 <? GoInt.len (batch (gr s)) then
          match flush (cl s) (wd s) (batch (gr s)) false with
          | Some (c1, w1, _) =>
              Next {| cl := c1;
                      gr := {| t := Timer.Reset (now w1) (batchFlushInterval c1) tm;
                               batch := []; returned := false |};
                      wd := w1 |}
          | None => Panic
          end
        else
          Next {| cl := cl s;
                  gr := {| t := Timer.Reset (now (wd s)) (batchFlushInterval (cl s)) tm;
                           batch := batch (gr s); returned := false |};
                  wd := wd s |}
    end
  else NotEnabled.

(** The two cases of the [select]. *)
Inductive SelectCase : Type :=
| OnEnvelope
| OnTimer.

(** One turn of the loop of [startSender]: the [select] takes case [k]
    and the body runs to the next [select], or to the send on
    [closeErrors] that precedes the return. *)
Definition startSender (s : System) (k : SelectCase) : Outcome :=
  match k with
  | OnEnvelope => sender_recv s
  | OnTimer => sender_timer s
  end.

(** The system right after a successful [NewIngressClient]: the goroutine
    has been started, and [startSender] has run its first statement,
    [t := time.NewTimer(c.batchFlushInterval)], with an empty batch. *)
Definition boot (start : Z) (net : nat -> Reply) (c : IngressClient) : System :=
  {| cl := c;
     gr := {| t := Timer.NewTimer start (batchFlushInterval c);
              batch := []; returned := false |};
     wd := {| now := start; transport := net; calls := []; printed := [];
              closers := 0; closeResults := [] |} |}.

(* ===================================================================== *)
(** ** Schedules *)
(* ===================================================================== *)

(** What can happen next: a producer reaches the channel send of one of
    the emitters, a caller runs one of the two statements of [CloseSend],
    the sender goroutine takes one of the two cases of its [select] and
    runs the body to the next [select], or time passes. The body of the
    loop touches only what the goroutine owns, so running it in one step
    loses no interleaving. *)
Inductive Action : Type :=
| CallEmitLog (ts : Z) (message : string) (opts : list EmitOption)
| CallEmitGauge (ts : Z) (opts : list EmitOption)
| CallEmitCounter (ts : Z) (name : string) (opts : list EmitOption)
| CallCloseSend
| ReturnCloseSend
| SenderRecv
| SenderTimer
| Elapse (dt : N).

Definition lift (s : System) (r : Chan.result IngressClient) : Outcome :=
  match r with
  | Chan.Done c1 => Next {| cl := c1; gr := gr s; wd := wd s |}
  | Chan.Blocks => NotEnabled
  | Chan.Panics => Panic
  end.

Definition step (s : System) (a : Action) : Outcome :=
  match a with
  | CallEmitLog ts message opts => lift s (EmitLog (cl s) ts message opts)
  | CallEmitGauge ts opts => lift s (EmitGauge (cl s) ts opts)
  | CallEmitCounter ts name opts => lift s (EmitCounter (cl s) ts name opts)
  | CallCloseSend =>
      match CloseSend_close (cl s) with
      | Chan.Done c1 =>
          Next {| cl := c1; gr := gr s;
                  wd := set_closers (S (closers (wd s))) (closeResults (wd s)) (wd s) |}
      | Chan.Blocks => NotEnabled
      | Chan.Panics => Panic
      end
  | ReturnCloseSend =>
      match closers (wd s) with
      | O => NotEnabled
      | S n =>
          match CloseSend_recv (cl s) with
          | Chan.Done (r, c1) =>
              Next {| cl := c1;
                      gr := {| t := t (gr s); batch := batch (gr s); returned := true |};
                      wd := set_closers n (closeResults (wd s) ++ [r]) (wd s) |}
          | Chan.Blocks => NotEnabled
          | Chan.Panics => Panic
          end
      end
  | SenderRecv => startSender s OnEnvelope
  | SenderTimer => startSender s OnTimer
  | Elapse dt => Next {| cl := cl s; gr := gr s; wd := elapse dt (wd s) |}
  end.

(** Running a schedule; every action of it must be enabled. *)
Fixpoint run (s : System) (acts : list Action) : Outcome :=
  match acts with
  | [] => Next s
  | a :: rest =>
      match step s a with
      | Next s1 => run s1 rest
      | other => other
      end
  end.

(** The envelope an action puts in the queue, if it is an emitter call. *)
Definition submitted (c : IngressClient) (a : Action) : list Envelope :=
  match a with
  | CallEmitLog ts message opts => option_list (log_envelope c ts message opts)
  | CallEmitGauge ts opts => option_list (gauge_envelope c ts opts)
  | CallEmitCounter ts name opts => option_list (counter_envelope c ts name opts)
  | _ => []
  end.

(** The envelopes accepted into the queue along a schedule, in order. *)
Definition accepted (c : IngressClient) (acts : list Action) : list Envelope :=
  concat (map (submitted c) acts).

(** The batches handed to [Send], in call order. *)
Definition sent_batches (cs : list Call) : list (list Envelope) :=
  omap (fun k => match k with Send _ b _ => Some b | _ => None end) cs.

Definition count_calls (p : Call -> bool) (cs : list Call) : nat :=
  length (filter (fun k => p k = true) cs).

Definition is_BatchSender (k : Call) : bool :=
  match k with BatchSender _ => true | _ => false end.

Definition is_Send (k : Call) : bool :=
  match k with Send _ _ _ => true | _ => false end.

Definition is_StreamCloseSend (k : Call) : bool :=
  match k with StreamCloseSend _ _ => true | _ => false end.

(** A transport that never fails. *)
Definition failure_free (net : nat -> Reply) : Prop :=
  forall k, failure (net k) = None.

(* ===================================================================== *)
(** ** Vocabulary of the statements *)
(* ===================================================================== *)

(** What an option writes to the tag map of an envelope. *)
Definition option_tags (o : EmitOption) (tg : gmap string string) : gmap string string :=
  match o with
  | WithAppInfo _ sourceType _ => <["source_type" := sourceType]> tg
  | WithEnvelopeTag name value => <[name := value]> tg
  | WithEnvelopeTags m => m ∪ tg
  | _ => tg
  end.

(** The tags given per call, later options winning over earlier ones. *)
Definition per_call_tags (opts : list EmitOption) : gmap string string :=
  fold_left (fun acc o => option_tags o acc) opts ∅.

Definition is_WithDelta (o : EmitOption) : bool :=
  match o with WithDelta _ => true | _ => false end.

(** The options of an emitter call. *)
Definition call_options (a : Action) : option (list EmitOption) :=
  match a with
  | CallEmitLog _ _ opts => Some opts
  | CallEmitGauge _ opts => Some opts
  | CallEmitCounter _ _ opts => Some opts
  | _ => None
  end.

(** The error a transport call returned. *)
Definition call_failure (k : Call) : option Err :=
  match k with
  | BatchSender r => r
  | Send _ _ r => r
  | StreamCloseSend _ r => r
  end.

Definition call_ok (k : Call) : Prop := call_failure k = None.

(** The line [flush] prints for an error. *)
Definition log_line (l : Logger) (err : Err) : Logger * string :=
  (l, ("Error while flushing: " ++ err)%string).

(** At the [select], the timer either runs with an empty channel or has
    fired and holds its one value. *)
Definition timer_ok (tm : Timer.t) : Prop :=
  match Timer.deadline tm, Timer.pending tm with
  | Some _, false => True
  | None, true => True
  | _, _ => False
  end.

(** The timer runs, armed for instant [d], and its channel is empty. *)
Definition armed_for (d : Z) (tm : Timer.t) : Prop :=
  tm = Timer.mk (Some d) false.

(** What holds of every state the system reaches. *)
Record wf (s : System) : Prop := {
  wf_timer : at_select s = true -> timer_ok (t (gr s));
  wf_drained : at_select s = false ->
    Chan.closed (envelopes (cl s)) = true /\ Chan.buf (envelopes (cl s)) = [];
  wf_cap : Chan.cap (envelopes (cl s)) = 100%nat;
  wf_len : (length (Chan.buf (envelopes (cl s))) <= 100)%nat
}.

(** The records the client still holds: the batch of the goroutine and
    the queue behind it. After the final flush there are none. *)
Definition in_flight (s : System) : list Envelope :=
  if at_select s then batch (gr s) ++ Chan.buf (envelopes (cl s)) else [].

(** The system was started by [NewIngressClient] and has run a schedule. *)
Definition reached (s : System) : Prop :=
  exists dial opts c start net acts,
    NewIngressClient dial opts = inr c /\ run (boot start net c) acts = Next s.

(** The stream a [flush] sends on: the live handle of the client, or a
    fresh one opened by a successful [BatchSender] call, which is then
    the only establishment call made. *)
Inductive opened (c : IngressClient) (w : World) : list Call -> nat -> Prop :=
| op_live h : sender c = Some h -> opened c w [] h
| op_fresh : sender c = None -> opened c w [BatchSender None] (length (calls w)).

(** The calls one [flush] of batch [b] makes on the transport, the
    handle it leaves in the client, and the error it returns. *)
Inductive flush_calls (c : IngressClient) (w : World) (b : list Envelope)
  (close : bool) : list Call -> option nat -> option Err -> Prop :=
| fc_no_stream err :
    sender c = None ->
    flush_calls c w b close [BatchSender (Some err)] None (Some err)
| fc_send_failed est h err :
    opened c w est h ->
    flush_calls c w b close (est ++ [Send h b (Some err)]) None (Some err)
| fc_sent est h :
    opened c w est h ->
    close = false ->
    flush_calls c w b close (est ++ [Send h b None]) (Some h) None
| fc_closed est h r :
    opened c w est h ->
    close = true ->
    flush_calls c w b close (est ++ [Send h b None; StreamCloseSend h r]) (Some h) r.

(** A step that made no flush: the transport and the logger were not
    called and the stream handle is what it was. *)
Definition quiet (s s' : System) : Prop :=
  calls (wd s') = calls (wd s) /\
  printed (wd s') = printed (wd s) /\
  sender (cl s') = sender (cl s) /\
  closeErrors (cl s') = closeErrors (cl s) \/
  (calls (wd s') = calls (wd s) /\
   printed (wd s') = printed (wd s) /\
   sender (cl s') = sender (cl s) /\
   returned (gr s') = true).

(** A step of the sender goroutine that made one flush of batch [b],
    returning [r]. The final flush ([close = true]) is the one made on
    the closed and drained queue, whose result is offered on
    [closeErrors]; any other flush empties the batch and leaves the
    timer armed for a full interval after the instant the flush
    returned. *)
Record flushing (s : System) (a : Action) (s' : System) (c0 : IngressClient)
  (b : list Envelope) (close : bool) (r : option Err) : Prop := {
  fl_select : at_select s = true;
  fl_action : a = SenderRecv \/ a = SenderTimer;
  fl_sender : sender c0 = sender (cl s);
  fl_logger : logger c0 = logger (cl s);
  fl_flush : exists c1, flush c0 (wd s) b close = Some (c1, wd s', r) /\
                        sender (cl s') = sender c1;
  fl_taken : exists taken,
      Chan.buf (envelopes (cl s)) = taken ++ Chan.buf (envelopes (cl s')) /\
      b = batch (gr s) ++ taken;
  fl_final : close = true ->
      a = SenderRecv /\
      Chan.closed (envelopes (cl s)) = true /\
      Chan.buf (envelopes (cl s)) = [] /\
      b = batch (gr s) /\
      closeErrors (cl s') = Some r /\
      returned (gr s') = false;
  fl_loop : close = false ->
      at_select s' = true /\
      b <> [] /\
      batch (gr s') = [] /\
      armed_for (now (wd s') + batchFlushInterval (cl s)) (t (gr s'))
}.

(** After the final flush nothing moves but the rendezvous on
    [closeErrors]: no transport call is made, and [CloseSend] returns
    the offered result, once. *)
Definition drained (cs : list Call) (r : option Err) (rs : list (option Err))
  (s : System) : Prop :=
  calls (wd s) = cs /\
  ((closeErrors (cl s) = Some r /\ closeResults (wd s) = rs) \/
   (closeErrors (cl s) = None /\ returned (gr s) = true)).

(** No value can be received from the timer before instant [T]: a value
    in its channel was put there at or after [T], and a running timer
    fires at or after [T]. [T0] is an instant the clock has passed. *)
Definition silent_until (T0 T : Z) (s : System) : Prop :=
  T0 <= now (wd s) /\
  (Timer.pending (t (gr s)) = true -> T <= now (wd s)) /\
  (forall d, Timer.deadline (t (gr s)) = Some d -> T <= d).

(** The actions of a schedule in which no timer fires and no shutdown
    is asked for. *)
Definition submit_or_receive (a : Action) : bool :=
  match a with
  | SenderTimer | CallCloseSend | ReturnCloseSend => false
  | _ => true
  end.

(** The number of records the client holds. *)
Definition held (s : System) : nat :=
  length (batch (gr s)) + length (Chan.buf (envelopes (cl s))).

(* ===================================================================== *)
(** ** Scenarios *)
(* ===================================================================== *)

(** A transport that accepts every call at once. *)
Definition always_ok : nat -> Reply :=
  fun _ => {| failure := None; took := 0 |}.

(** A transport whose call number [n] fails with [err] after [d]
    nanoseconds, every other call succeeding at once. *)
Definition fails_at (n : nat) (err : Err) (d : N) : nat -> Reply :=
  fun k => if (k =? n)%nat then {| failure := Some err; took := d |}
           else {| failure := None; took := 0 |}.

(** A [grpc.Dial] that succeeds. *)
Definition dial_ok : string -> option Err := fun _ => None.

(** The state a schedule leads to, [s] itself if the schedule does not
    run through. *)
Definition after (s : System) (acts : list Action) : System :=
  match run s acts with
  | Next s' => s'
  | _ => s
  end.

(** A client that flushes every three records. *)
Definition opts3 : list IngressOption :=
  [WithTag "deployment" "cf"; WithBatchMaxSize 3; WithLogger (UserLogger "test")].

Definition client3 : IngressClient := configure opts3 default_client.

(** Five log lines, the emitter calls that submit them, and the
    receives that take them from the queue. *)
Definition line (n : Z) : Action :=
  CallEmitLog n "line" [WithEnvelopeTag "deployment" "dev"].

Definition five_lines : list Action :=
  [line 1; line 2; line 3; line 4; line 5].

Definition five_receives : list Action :=
  [SenderRecv; SenderRecv; SenderRecv; SenderRecv; SenderRecv].

(** Batch maximum 3, five records submitted and received, then the
    shutdown: the call of [CloseSend], the receive of the end-of-stream
    marker, and the return of [CloseSend]. *)
Definition shutdown_run : list Action :=
  five_lines ++ five_receives ++ [CallCloseSend; SenderRecv; ReturnCloseSend].

(** A client that flushes every record and was handed a nil logger. *)
Definition client_nil : IngressClient :=
  configure [WithBatchMaxSize 1; WithLogger NilLogger] default_client.

(** A client whose batch maximum is the [uint] 2^63. *)
Definition client_huge : IngressClient :=
  configure [WithBatchMaxSize (2 ^ 63)] default_client.

(** The client of the scenarios, started at instant 0 on transport [net]. *)
Definition sys3 (net : nat -> Reply) : System := boot 0 net client3.

(** Five records submitted, two seconds gone (the flush timer has fired
    and its value waits in the channel), two records received. *)
Definition two_received : list Action :=
  five_lines ++ [Elapse 2000000000; SenderRecv; SenderRecv].

(** The five records submitted and received, and [CloseSend] called. *)
Definition closing : list Action :=
  five_lines ++ five_receives ++ [CallCloseSend].

(** A counter emitted with a per-call tag and no delta. *)
Definition count_requests : Action :=
  CallEmitCounter 7 "requests" [WithEnvelopeTag "deployment" "dev"].

(** A transport whose first [Send] (its call number 1) breaks after 7
    nanoseconds. *)
Definition broken_send : nat -> Reply := fails_at 1 "broken pipe" 7.


(** After the failed flush of the first three records: the fourth is
    received, and a second goes by. *)
Definition fourth_received : list Action := [SenderRecv; Elapse 1000000000].

(* ===================================================================== *)
(** ** Vocabulary of the further properties *)
(* ===================================================================== *)

(** What a client option sets, by field. *)
Definition sets_batchMaxSize (o : IngressOption) : option Z :=
  match o with WithBatchMaxSize n => Some n | _ => None end.

Definition sets_batchFlushInterval (o : IngressOption) : option Z :=
  match o with WithBatchFlushInterval d => Some d | _ => None end.

Definition sets_addr (o : IngressOption) : option string :=
  match o with WithAddr a => Some a | _ => None end.

Definition sets_logger (o : IngressOption) : option Logger :=
  match o with WithLogger l => Some l | _ => None end.

Definition sets_tag (k : string) (o : IngressOption) : option string :=
  match o with
  | WithTag name value => if decide (name = k) then Some value else None
  | _ => None
  end.

(** The last of the values the elements of a list give, if any does. *)
Definition last_given {A B : Type} (f : A -> option B) (l : list A) : option B :=
  last (omap f l).

(** The kinds of envelope the emitters build. *)
Inductive Kind : Type := KLog | KCounter | KGauge.

Definition kind_of (m : isEnvelope_Message) : Kind :=
  match m with
  | Envelope_Log _ _ => KLog
  | Envelope_Counter _ _ => KCounter
  | Envelope_Gauge _ => KGauge
  end.

(** The options that reach into the message of an envelope do so
    through the getter of one kind; the others work on every kind. *)
Definition fits (k : Kind) (o : EmitOption) : bool :=
  match o, k with
  | WithStdout, KLog => true
  | WithStdout, _ => false
  | WithGaugeValue _ _ _, KGauge => true
  | WithGaugeValue _ _ _, _ => false
  | WithDelta _, KCounter => true
  | WithDelta _, _ => false
  | _, _ => true
  end.

Definition is_WithStdout (o : EmitOption) : bool :=
  match o with WithStdout => true | _ => false end.

Definition gives_delta (o : EmitOption) : option Z :=
  match o with WithDelta d => Some d | _ => None end.

Definition gives_metric (k : string) (o : EmitOption) : option GaugeValue :=
  match o with
  | WithGaugeValue name value unit =>
      if decide (name = k) then Some {| Unit := unit; Value := value |} else None
  | _ => None
  end.

Definition gives_source (o : EmitOption) : option string :=
  match o with
  | WithAppInfo appID _ _ => Some appID
  | WithGaugeAppInfo appID => Some appID
  | _ => None
  end.

Definition gives_instance (o : EmitOption) : option string :=
  match o with
  | WithAppInfo _ _ sourceInstance => Some sourceInstance
  | _ => None
  end.

(** What holds besides of every state the system reaches: the batch at
    the [select] is empty or below the size trigger; a running timer is
    due at most one interval from now; [CloseSend] has returned nothing
    before the goroutine returns and one result after, and its one
    caller waits from the closing of the queue to then. *)
Record wf_more (s : System) : Prop := {
  wm_batch : at_select s = true ->
    batch (gr s) = [] \/
    GoInt.len (batch (gr s)) < GoInt.int_of_uint (batchMaxSize (cl s));
  wm_due : forall d, Timer.deadline (t (gr s)) = Some d ->
    d <= now (wd s) + batchFlushInterval (cl s);
  wm_results :
    if returned (gr s)
    then closeErrors (cl s) = None /\ length (closeResults (wd s)) = 1%nat /\
         closers (wd s) = 0%nat /\ Chan.closed (envelopes (cl s)) = true
    else closeResults (wd s) = [] /\
         closers (wd s) = (if Chan.closed (envelopes (cl s)) then 1 else 0)%nat
}.

(** The discipline of the stream, replayed over a history of transport
    calls whose first call has number [n], [live] being the open stream
    if there is one: a stream is opened only when none is open and is
    named by the number of the call that opens it; a batch is sent, and
    the stream closed, only on the open stream; a failed send leaves no
    stream open. The result is the stream open at the end, [None] at
    the top when the history breaks the discipline. *)
Fixpoint replay (live : option nat) (n : nat) (cs : list Call) : option (option nat) :=
  match cs with
  | [] => Some live
  | BatchSender r :: rest =>
      match live with
      | Some _ => None
      | None =>
          replay (match r with None => Some n | Some _ => None end) (S n) rest
      end
  | Send h _ r :: rest =>
      if decide (live = Some h)
      then replay (match r with None => live | Some _ => None end) (S n) rest
      else None
  | StreamCloseSend h _ :: rest =>
      if decide (live = Some h) then replay live (S n) rest else None
  end.

Definition is_failed_open (k : Call) : bool :=
  match k with BatchSender (Some _) => true | _ => false end.

Definition is_failed_send (k : Call) : bool :=
  match k with Send _ _ (Some _) => true | _ => false end.

(** One for an open stream, none for none. *)
Definition streams_held (live : option nat) : nat :=
  match live with Some _ => 1 | None => 0 end.

(** The stream close, if the history has one, is its last call. *)
Definition closes_last (cs : list Call) : Prop :=
  Forall (fun k => is_StreamCloseSend k = false) cs \/
  exists pre k, cs = pre ++ [k] /\
    Forall (fun k => is_StreamCloseSend k = false) pre.

(* ===================================================================== *)
(** * Properties *)
(* ===================================================================== *)

(** ** Tags *)

Lemma copy_into_union (src dst : gmap string string) :
  copy_into src dst = src ∪ dst.
Proof.
  unfold copy_into.
  apply (map_fold_weak_ind (fun r m => r = m ∪ dst)).
  - by rewrite (left_id_L ∅ (∪)).
  - intros i x m r _ ->. by rewrite insert_union_l.
Qed.

Lemma option_tags_union (o : EmitOption) (a m : gmap string string) :
  option_tags o (a ∪ m) = option_tags o a ∪ m.
Proof.
  destruct o; simpl; try reflexivity.
  - by rewrite insert_union_l.
  - by rewrite insert_union_l.
  - by rewrite (assoc_L (∪)).
Qed.

Lemma fold_option_tags_union (opts : list EmitOption) (a m : gmap string string) :
  fold_left (fun acc o => option_tags o acc) opts (a ∪ m)
  = fold_left (fun acc o => option_tags o acc) opts a ∪ m.
Proof.
  revert a. induction opts as [|o opts IH]; intros a; simpl; [reflexivity|].
  by rewrite option_tags_union, IH.
Qed.

Lemma run_option_tags (o : EmitOption) (e e' : Envelope) :
  run_option o e = Some e' -> Tags e' = option_tags o (Tags e).
Proof.
  destruct o; simpl; intros H.
  - by inversion H.
  - destruct (Message e); inversion H; reflexivity.
  - by inversion H.
  - destruct (Message e); inversion H; reflexivity.
  - destruct (Message e); inversion H; reflexivity.
  - by inversion H.
  - inversion H; simpl. apply copy_into_union.
Qed.

Lemma run_options_tags (opts : list EmitOption) (e e' : Envelope) :
  run_options opts e = Some e' ->
  Tags e' = fold_left (fun acc o => option_tags o acc) opts (Tags e).
Proof.
  revert e. induction opts as [|o opts IH]; intros e; simpl.
  - by inversion 1.
  - destruct (run_option o e) as [e1|] eqn:E; [|discriminate].
    intros H. rewrite (IH _ H). by rewrite (run_option_tags _ _ _ E).
Qed.

Lemma build_tags (c : IngressClient) (ts : Z) (m : isEnvelope_Message)
  (opts : list EmitOption) (e : Envelope) :
  build c ts m opts = Some e -> Tags e = per_call_tags opts ∪ tags c.
Proof.
  unfold build. intros H. apply run_options_tags in H. rewrite H. simpl.
  rewrite copy_into_union, (right_id_L ∅ (∪)).
  rewrite <- (left_id_L ∅ (∪) (tags c)) at 1.
  apply fold_option_tags_union.
Qed.

Lemma run_option_counter (o : EmitOption) (e e' : Envelope) (n : string) (d : Z) :
  is_WithDelta o = false ->
  Message e = Envelope_Counter n d ->
  run_option o e = Some e' -> Message e' = Envelope_Counter n d.
Proof.
  destruct o; simpl; intros Hd Hm H; try discriminate;
    try (inversion H; subst; simpl; assumption);
    rewrite Hm in H; discriminate.
Qed.

Lemma run_options_counter (opts : list EmitOption) (e e' : Envelope) (n : string) (d : Z) :
  forallb (fun o => negb (is_WithDelta o)) opts = true ->
  Message e = Envelope_Counter n d ->
  run_options opts e = Some e' -> Message e' = Envelope_Counter n d.
Proof.
  revert e. induction opts as [|o opts IH]; intros e; simpl.
  - intros _ Hm H. by inversion H; subst.
  - intros Hall Hm. apply andb_prop in Hall as [Ho Hall].
    apply negb_true_iff in Ho.
    destruct (run_option o e) as [e1|] eqn:E; [|discriminate].
    apply IH; [assumption|]. eapply run_option_counter; eassumption.
Qed.

Lemma emit_envelope_done (c c' : IngressClient) (oe : option Envelope) :
  emit_envelope c oe = Chan.Done c' ->
  exists e, oe = Some e /\
    Chan.closed (envelopes c) = false /\
    (length (Chan.buf (envelopes c)) < Chan.cap (envelopes c))%nat /\
    c' = set_envelopes
           (Chan.mk (Chan.buf (envelopes c) ++ [e]) (Chan.cap (envelopes c)) false) c.
Proof.
  destruct oe as [e|]; simpl; [|discriminate].
  unfold submit, Chan.send.
  destruct (Chan.closed (envelopes c)) eqn:Hc; [discriminate|].
  destruct (Nat.ltb_spec (length (Chan.buf (envelopes c))) (Chan.cap (envelopes c)));
    [|discriminate].
  intros Hd. inversion Hd. eauto 6.
Qed.

(** *** C9 *)

(** C9. A record submitted through [EmitLog], [EmitGauge] or
    [EmitCounter] reaches the tail of the queue carrying the static tags
    of the client with the tags of the per-call options merged over
    them: a key written by a per-call option has the per-call value, any
    other key has its static value. A counter emitted with no [WithDelta]
    among its options has delta 1. *)
Theorem emitted_record_tags_and_delta (s s' : System) (a : Action)
  (opts : list EmitOption) :
  call_options a = Some opts ->
  step s a = Next s' ->
  exists e,
    Chan.buf (envelopes (cl s')) = Chan.buf (envelopes (cl s)) ++ [e] /\
    Tags e = per_call_tags opts ∪ tags (cl s) /\
    (forall k v, per_call_tags opts !! k = Some v -> Tags e !! k = Some v) /\
    (forall k, per_call_tags opts !! k = None -> Tags e !! k = tags (cl s) !! k) /\
    (forall ts name, a = CallEmitCounter ts name opts ->
       forallb (fun o => negb (is_WithDelta o)) opts = true ->
       Message e = Envelope_Counter name 1).
Proof.
  intros Ho Hs.
  assert (exists m ts, step s a = lift s (emit_envelope (cl s) (build (cl s) ts m opts))
            /\ forall ts' name, a = CallEmitCounter ts' name opts -> m = Envelope_Counter name 1)
    as (m & ts & Hstep & Hm).
  { destruct a; simpl in Ho; inversion Ho; subst; simpl.
    - exists (Envelope_Log message Log_ERR), ts. split; [reflexivity|]. discriminate.
    - exists (Envelope_Gauge ∅), ts. split; [reflexivity|]. discriminate.
    - exists (Envelope_Counter name 1), ts. split; [reflexivity|].
      intros ts' name' H. by inversion H. }
  rewrite Hstep in Hs. unfold lift in Hs.
  destruct (emit_envelope _ _) as [c1| |] eqn:E; try discriminate.
  inversion Hs; subst s'; clear Hs. simpl.
  apply emit_envelope_done in E as (e & Hb & _ & _ & ->). simpl.
  exists e. pose proof (build_tags _ _ _ _ _ Hb) as Ht.
  split; [reflexivity|]. split; [assumption|].
  split; [|split].
  - intros k v Hk. rewrite Ht. by apply lookup_union_Some_l.
  - intros k Hk. rewrite Ht. by apply lookup_union_r.
  - intros ts' name Ha Hnd. specialize (Hm _ _ Ha). subst m.
    unfold build in Hb. eapply run_options_counter; [exact Hnd| |exact Hb].
    reflexivity.
Qed.

(** ** The timer *)


Lemma restart_timer_armed (now d : Z) (tm : Timer.t) :
  timer_ok tm ->
  restart_timer now d tm = Some (Timer.mk (Some (now + d)) false).
Proof.
  unfold timer_ok, restart_timer, Timer.Stop, Timer.recv, Timer.Reset, Timer.at_time.
  destruct tm as [[dl|] [|]]; simpl; try tauto; intros _.
  destruct (dl <=? now); simpl; reflexivity.
Qed.

Lemma timer_recv_reset (now now' d : Z) (tm tm' : Timer.t) :
  timer_ok tm ->
  Timer.recv now tm = Some tm' ->
  Timer.Reset now' d tm' = Timer.mk (Some (now' + d)) false.
Proof.
  unfold timer_ok, Timer.recv, Timer.Reset, Timer.at_time.
  destruct tm as [[dl|] [|]]; simpl; try tauto; intros _.
  - destruct (dl <=? now); simpl; [|discriminate].
    intros H; inversion H; subst; reflexivity.
  - intros H; inversion H; subst; reflexivity.
Qed.

(** A value can be received from the timer at [now] only if it fired at
    or before [now]: either it sits in the channel or the deadline is
    reached. *)
Lemma timer_recv_enabled (now : Z) (tm tm' : Timer.t) :
  Timer.recv now tm = Some tm' ->
  Timer.pending tm = true \/ exists dl, Timer.deadline tm = Some dl /\ dl <= now.
Proof.
  unfold Timer.recv, Timer.at_time.
  destruct tm as [[dl|] p]; simpl.
  - destruct (dl <=? now) eqn:E; simpl.
    + intros _. right. exists dl. split; [reflexivity|lia].
    + destruct p; [|discriminate]. by left.
  - destruct p; [|discriminate]. by left.
Qed.

(** ** emit and flush: what they leave alone, what they call *)

Ltac unfold_emit :=
  unfold flush, emit, rpc, Printf; simpl.

Ltac split_emit :=
  repeat match goal with
  | |- context [match sender ?c with _ => _ end] => destruct (sender c) eqn:?; simpl
  | |- context [match failure ?r with _ => _ end] => destruct (failure r) eqn:?; simpl
  | |- context [match logger ?c with _ => _ end] => destruct (logger c) eqn:?; simpl
  | |- context [if ?b then _ else _] => is_var b; destruct b; simpl
  end.

Lemma flush_frame (c c' : IngressClient) (w w' : World) (b : list Envelope)
  (close : bool) (r : option Err) :
  flush c w b close = Some (c', w', r) ->
  envelopes c' = envelopes c /\ tags c' = tags c /\
  batchMaxSize c' = batchMaxSize c /\
  batchFlushInterval c' = batchFlushInterval c /\
  logger c' = logger c /\ closeErrors c' = closeErrors c /\
  transport w' = transport w /\ closers w' = closers w /\
  closeResults w' = closeResults w /\ now w <= now w'.
Proof.
  unfold_emit. split_emit; intros H; inversion H; subst; simpl;
    repeat split; first [reflexivity | assumption | lia].
Qed.

Ltac solve_flush_calls :=
  simpl;
  try match goal with H : sender _ = _ |- _ => rewrite ?H end;
  first
    [ apply fc_no_stream; assumption
    | apply (fc_send_failed _ _ _ _ []); apply op_live; assumption
    | apply (fc_send_failed _ _ _ _ [BatchSender None]); apply op_fresh; assumption
    | apply (fc_sent _ _ _ _ []); [apply op_live; assumption | reflexivity]
    | apply (fc_sent _ _ _ _ [BatchSender None]); [apply op_fresh; assumption | reflexivity]
    | apply (fc_closed _ _ _ _ []); [apply op_live; assumption | reflexivity]
    | apply (fc_closed _ _ _ _ [BatchSender None]); [apply op_fresh; assumption | reflexivity] ].

Lemma flush_spec (c c' : IngressClient) (w w' : World) (b : list Envelope)
  (close : bool) (r : option Err) :
  flush c w b close = Some (c', w', r) ->
  exists new,
    flush_calls c w b close new (sender c') r /\
    calls w' = calls w ++ new /\
    printed w' = printed w ++ map (log_line (logger c)) (omap call_failure new) /\
    (forall k, (k < length new)%nat ->
       (new !! k : option Call) ≫= call_failure
       = failure (transport w (length (calls w) + k)%nat)).
Proof.
  unfold_emit. split_emit; intros H; inversion H; subst; simpl.
  all: rewrite ?length_app in *; simpl in *; rewrite <- ?Nat.add_assoc in *; simpl in *.
  all: eexists; split; [|split; [|split]].
  all: try (rewrite <- ?app_assoc; simpl; reflexivity).
  all: try solve_flush_calls.
  all: try (simpl; rewrite (right_id_L [] (++)); reflexivity).
  all: try (intros k Hk; destruct k as [|[|[|k]]]; simpl in *; try lia;
            rewrite ?Nat.add_0_r; congruence).
Qed.

(** ** The two cases of the select, read back *)

Lemma sender_recv_inv (s s' : System) :
  sender_recv s = Next s' ->
  at_select s = true /\
  ((Chan.buf (envelopes (cl s)) = [] /\
    Chan.closed (envelopes (cl s)) = true /\
    exists c1 w1 r,
      flush (cl s) (wd s) (batch (gr s)) true = Some (c1, w1, r) /\
      s' = {| cl := set_closeErrors (Some r) c1; gr := gr s; wd := w1 |})
   \/
   (exists env rest,
      Chan.buf (envelopes (cl s)) = env :: rest /\
      let c0 := set_envelopes
                  (Chan.mk rest (Chan.cap (envelopes (cl s)))
                     (Chan.closed (envelopes (cl s)))) (cl s) in
      let batch1 := batch (gr s) ++ [env] in
      ((GoInt.int_of_uint (batchMaxSize (cl s)) <= GoInt.len batch1 /\
        exists c1 w1 r,
          flush c0 (wd s) batch1 false = Some (c1, w1, r) /\
          exists tm,
            restart_timer (now w1) (batchFlushInterval c1) (t (gr s)) = Some tm /\
            s' = {| cl := c1;
                    gr := {| t := tm; batch := []; returned := false |};
                    wd := w1 |})
       \/
       (GoInt.len batch1 < GoInt.int_of_uint (batchMaxSize (cl s)) /\
        s' = {| cl := c0;
                gr := {| t := t (gr s); batch := batch1; returned := false |};
                wd := wd s |})))).
Proof.
  unfold sender_recv.
  destruct (at_select s) eqn:Hsel; [|discriminate].
  intros H. split; [reflexivity|].
  unfold Chan.recv in H.
  destruct (Chan.buf (envelopes (cl s))) as [|env rest] eqn:Hbuf.
  - destruct (Chan.closed (envelopes (cl s))) eqn:Hcl; [|discriminate].
    left. split; [reflexivity|]. split; [reflexivity|].
    destruct (flush _ _ _ true) as [[[c1 w1] r]|] eqn:Hf; [|discriminate].
    inversion H; subst. eauto.
  - right. exists env, rest. split; [reflexivity|]. simpl in *.
    destruct (_ >=? _) eqn:Hge.
    + left. split; [lia|].
      destruct (flush _ _ _ false) as [[[c1 w1] r]|] eqn:Hf; [|discriminate].
      destruct (restart_timer _ _ _) as [tm|] eqn:Hrt; [|discriminate].
      inversion H; subst. eauto 10.
    + right. split; [lia|]. by inversion H.
Qed.

Lemma sender_timer_inv (s s' : System) :
  sender_timer s = Next s' ->
  at_select s = true /\
  exists tm,
    Timer.recv (now (wd s)) (t (gr s)) = Some tm /\
    ((batch (gr s) <> [] /\
      exists c1 w1 r,
        flush (cl s) (wd s) (batch (gr s)) false = Some (c1, w1, r) /\
        s' = {| cl := c1;
                gr := {| t := Timer.Reset (now w1) (batchFlushInterval c1) tm;
                         batch := []; returned := false |};
                wd := w1 |})
     \/
     (batch (gr s) = [] /\
      s' = {| cl := cl s;
              gr := {| t := Timer.Reset (now (wd s)) (batchFlushInterval (cl s)) tm;
                       batch := []; returned := false |};
              wd := wd s |})).
Proof.
  unfold sender_timer.
  destruct (at_select s) eqn:Hsel; [|discriminate].
  intros H. split; [reflexivity|].
  destruct (Timer.recv _ _) as [tm|] eqn:Hr; [|discriminate].
  exists tm. split; [reflexivity|].
  destruct (0 <? _) eqn:Hlen.
  - left. split.
    + intros Hb. rewrite Hb in Hlen. discriminate.
    + destruct (flush _ _ _ false) as [[[c1 w1] r]|] eqn:Hf; [|discriminate].
      inversion H; subst. eauto.
  - right.
    assert (batch (gr s) = []) as Hb.
    { destruct (batch (gr s)); [reflexivity|]. unfold GoInt.len in Hlen.
      apply Z.ltb_ge in Hlen. simpl length in Hlen. lia. }
    split; [assumption|]. inversion H; subst. by rewrite Hb.
Qed.

(** ** What every reached state satisfies *)

Lemma at_select_true (s : System) :
  at_select s = true <-> returned (gr s) = false /\ closeErrors (cl s) = None.
Proof.
  unfold at_select.
  destruct (returned (gr s)); destruct (closeErrors (cl s)); simpl;
    split; try discriminate; try tauto; intros [? ?]; discriminate.
Qed.

Lemma at_select_false (s : System) :
  at_select s = false <-> returned (gr s) = true \/ closeErrors (cl s) <> None.
Proof.
  unfold at_select.
  destruct (returned (gr s)); destruct (closeErrors (cl s)); simpl;
    split; try discriminate; try tauto; try (intros [?|?]; congruence).
  intros _. right. discriminate.
Qed.

Lemma boot_wf (start : Z) (net : nat -> Reply) (c : IngressClient) :
  closeErrors c = None ->
  envelopes c = Chan.make 100 ->
  wf (boot start net c).
Proof.
  intros Hce Henv. split; simpl.
  - intros _. exact I.
  - intros H. exfalso.
    assert (at_select (boot start net c) = true) as H'.
    { apply at_select_true. simpl. auto. }
    rewrite H' in H. discriminate.
  - by rewrite Henv.
  - rewrite Henv. simpl. lia.
Qed.

Lemma step_wf (s s' : System) (a : Action) :
  wf s -> step s a = Next s' -> wf s'.
Proof.
  intros [Ht Hd Hc Hl] Hs.
  destruct a; cbn [step startSender] in Hs.
  1-3: unfold lift, EmitLog, EmitGauge, EmitCounter in Hs;
       match type of Hs with context [emit_envelope ?c ?oe] =>
         destruct (emit_envelope c oe) as [c1| |] eqn:E; try discriminate;
         apply emit_envelope_done in E as (e & _ & Hopen & Hlt & ->) end;
       inversion Hs; subst s'; clear Hs;
       split; simpl;
       [ exact Ht
       | intros Hn; destruct (Hd Hn) as [Hcl _]; congruence
       | exact Hc
       | rewrite length_app; simpl; lia ].
  - (* CallCloseSend *)
    unfold CloseSend_close, Chan.close in Hs.
    destruct (Chan.closed (envelopes (cl s))) eqn:Hcl; [discriminate|].
    inversion Hs; subst s'; clear Hs. split; simpl.
    + exact Ht.
    + intros Hn. destruct (Hd Hn) as [Hcl' _]. congruence.
    + exact Hc.
    + exact Hl.
  - (* ReturnCloseSend *)
    destruct (closers (wd s)) as [|n]; [discriminate|].
    unfold CloseSend_recv in Hs.
    destruct (closeErrors (cl s)) as [r|] eqn:Hce; [|discriminate].
    inversion Hs; subst s'; clear Hs.
    assert (at_select s = false) as Hn.
    { apply at_select_false. right. congruence. }
    split; simpl.
    + unfold at_select; simpl. discriminate.
    + intros _. exact (Hd Hn).
    + exact Hc.
    + exact Hl.
  - (* SenderRecv *)
    apply sender_recv_inv in Hs as [Hsel [(Hbuf & Hcl & c1 & w1 & r & Hf & ->)
      | (env & rest & Hbuf & [(Hge & c1 & w1 & r & Hf & tm & Hrt & ->) | (Hlt & ->)])]].
    + apply flush_frame in Hf as (He & _). split; simpl; rewrite ?He; auto.
    + pose proof (flush_frame _ _ _ _ _ _ _ Hf) as (He & _ & _ & _ & _ & Hce & _).
      rewrite (restart_timer_armed _ _ _ (Ht Hsel)) in Hrt. inversion Hrt; subst tm.
      apply at_select_true in Hsel as [_ Hnone].
      split; simpl; rewrite ?He; simpl.
      * intros _. exact I.
      * unfold at_select; simpl. rewrite Hce. simpl. rewrite Hnone. discriminate.
      * exact Hc.
      * rewrite Hbuf in Hl. simpl in Hl. lia.
    + pose proof Hsel as Hsel'. apply at_select_true in Hsel' as [_ Hnone].
      split; simpl.
      * intros _. exact (Ht Hsel).
      * unfold at_select; simpl. rewrite Hnone. discriminate.
      * exact Hc.
      * rewrite Hbuf in Hl. simpl in Hl. lia.
  - (* SenderTimer *)
    apply sender_timer_inv in Hs as [Hsel (tm & Hrecv & [(Hne & c1 & w1 & r & Hf & ->) | (Hb & ->)])].
    + pose proof (flush_frame _ _ _ _ _ _ _ Hf) as (He & _ & _ & _ & _ & Hce & _).
      pose proof Hsel as Hsel'. apply at_select_true in Hsel' as [_ Hnone].
      split; simpl; rewrite ?He.
      * intros _. rewrite (timer_recv_reset _ _ _ _ _ (Ht Hsel) Hrecv). exact I.
      * unfold at_select; simpl. rewrite Hce, Hnone. discriminate.
      * exact Hc.
      * exact Hl.
    + pose proof Hsel as Hsel'. apply at_select_true in Hsel' as [_ Hnone].
      split; simpl.
      * intros _. rewrite (timer_recv_reset _ _ _ _ _ (Ht Hsel) Hrecv). exact I.
      * unfold at_select; simpl. rewrite Hnone. discriminate.
      * exact Hc.
      * exact Hl.
  - (* Elapse *)
    inversion Hs; subst s'; clear Hs. split; simpl; auto.
Qed.

Lemma run_wf (acts : list Action) (s s' : System) :
  wf s -> run s acts = Next s' -> wf s'.
Proof.
  revert s. induction acts as [|a acts IH]; intros s Hwf; simpl.
  - intros H; inversion H; subst; assumption.
  - destruct (step s a) as [s1| | |] eqn:E; try discriminate.
    apply IH. eapply step_wf; eassumption.
Qed.

Lemma configure_fixed (opts : list IngressOption) (c : IngressClient) :
  envelopes (configure opts c) = envelopes c /\
  closeErrors (configure opts c) = closeErrors c /\
  sender (configure opts c) = sender c.
Proof.
  unfold configure. revert c.
  induction opts as [|o opts IH]; intros c; simpl; [auto|].
  destruct (IH (run_ingress_option o c)) as (-> & -> & ->).
  destruct o; simpl; auto.
Qed.

Lemma new_client_fresh (dial : string -> option Err) (opts : list IngressOption)
  (c : IngressClient) :
  NewIngressClient dial opts = inr c ->
  envelopes c = Chan.make 100 /\ closeErrors c = None /\ sender c = None.
Proof.
  unfold NewIngressClient.
  destruct (dial _); [discriminate|].
  intros H; inversion H; subst.
  destruct (configure_fixed opts default_client) as (-> & -> & ->). auto.
Qed.

Lemma reached_wf (s : System) : reached s -> wf s.
Proof.
  intros (dial & opts & c & start & net & acts & Hnew & Hrun).
  apply new_client_fresh in Hnew as (He & Hc & _).
  eapply run_wf; [|exact Hrun]. by apply boot_wf.
Qed.

(** ** What no step changes *)

Lemma step_config (s s' : System) (a : Action) :
  step s a = Next s' ->
  tags (cl s') = tags (cl s) /\
  batchMaxSize (cl s') = batchMaxSize (cl s) /\
  batchFlushInterval (cl s') = batchFlushInterval (cl s) /\
  logger (cl s') = logger (cl s) /\
  transport (wd s') = transport (wd s) /\
  now (wd s) <= now (wd s').
Proof.
  intros Hs. destruct a; cbn [step startSender] in Hs.
  1-3: unfold lift, EmitLog, EmitGauge, EmitCounter in Hs;
       match type of Hs with context [emit_envelope ?c ?oe] =>
         destruct (emit_envelope c oe) as [c1| |] eqn:E; try discriminate;
         apply emit_envelope_done in E as (e & _ & _ & _ & ->) end;
       inversion Hs; subst s'; simpl; repeat split; reflexivity || lia.
  - unfold CloseSend_close, Chan.close in Hs.
    destruct (Chan.closed _); [discriminate|].
    inversion Hs; subst s'; simpl; repeat split; reflexivity || lia.
  - destruct (closers (wd s)); [discriminate|].
    unfold CloseSend_recv in Hs.
    destruct (closeErrors (cl s)); [|discriminate].
    inversion Hs; subst s'; simpl; repeat split; reflexivity || lia.
  - apply sender_recv_inv in Hs as [Hsel [(Hbuf & Hcl & c1 & w1 & r & Hf & ->)
      | (env & rest & Hbuf & [(Hge & c1 & w1 & r & Hf & tm & Hrt & ->) | (Hlt & ->)])]].
    + apply flush_frame in Hf as (_ & ? & ? & ? & ? & _ & ? & _ & _ & ?).
      simpl; repeat split; assumption.
    + apply flush_frame in Hf as (_ & ? & ? & ? & ? & _ & ? & _ & _ & ?).
      simpl in *; repeat split; assumption.
    + simpl; repeat split; reflexivity || lia.
  - apply sender_timer_inv in Hs as [Hsel (tm & Hrecv & [(Hne & c1 & w1 & r & Hf & ->) | (Hb & ->)])].
    + apply flush_frame in Hf as (_ & ? & ? & ? & ? & _ & ? & _ & _ & ?).
      simpl; repeat split; assumption.
    + simpl; repeat split; reflexivity || lia.
  - inversion Hs; subst s'; simpl; repeat split; reflexivity || lia.
Qed.

Lemma run_config (acts : list Action) (s s' : System) :
  run s acts = Next s' ->
  tags (cl s') = tags (cl s) /\
  batchMaxSize (cl s') = batchMaxSize (cl s) /\
  batchFlushInterval (cl s') = batchFlushInterval (cl s) /\
  logger (cl s') = logger (cl s) /\
  transport (wd s') = transport (wd s) /\
  now (wd s) <= now (wd s').
Proof.
  revert s. induction acts as [|a acts IH]; intros s; simpl.
  - intros H; inversion H; subst. repeat split; reflexivity || lia.
  - destruct (step s a) as [s1| | |] eqn:E; try discriminate.
    intros H. apply IH in H as (-> & -> & -> & -> & -> & ?).
    apply step_config in E as (-> & -> & -> & -> & -> & ?).
    repeat split; reflexivity || lia.
Qed.


(** ** The queue *)

Lemma closed_stays (s s' : System) (a : Action) :
  step s a = Next s' ->
  Chan.closed (envelopes (cl s)) = true ->
  Chan.closed (envelopes (cl s')) = true.
Proof.
  intros Hs Hcl. destruct a; cbn [step startSender] in Hs.
  1-3: unfold lift, EmitLog, EmitGauge, EmitCounter in Hs;
       match type of Hs with context [emit_envelope ?c ?oe] =>
         destruct (emit_envelope c oe) as [c1| |] eqn:E; try discriminate;
         apply emit_envelope_done in E as (e & _ & Hopen & _ & ->) end;
       congruence.
  - unfold CloseSend_close, Chan.close in Hs. rewrite Hcl in Hs. discriminate.
  - destruct (closers (wd s)); [discriminate|].
    unfold CloseSend_recv in Hs.
    destruct (closeErrors (cl s)); [|discriminate].
    inversion Hs; subst s'; simpl. assumption.
  - apply sender_recv_inv in Hs as [Hsel [(Hbuf & _ & c1 & w1 & r & Hf & ->)
      | (env & rest & Hbuf & [(Hge & c1 & w1 & r & Hf & tm & Hrt & ->) | (Hlt & ->)])]].
    + apply flush_frame in Hf as (He & _). simpl. by rewrite He.
    + apply flush_frame in Hf as (He & _). simpl. by rewrite He.
    + simpl. assumption.
  - apply sender_timer_inv in Hs as [Hsel (tm & Hrecv & [(Hne & c1 & w1 & r & Hf & ->) | (Hb & ->)])].
    + apply flush_frame in Hf as (He & _). simpl. by rewrite He.
    + simpl. assumption.
  - inversion Hs; subst s'; simpl. assumption.
Qed.

Lemma closed_stays_run (acts : list Action) (s s' : System) :
  run s acts = Next s' ->
  Chan.closed (envelopes (cl s)) = true ->
  Chan.closed (envelopes (cl s')) = true.
Proof.
  revert s. induction acts as [|a acts IH]; intros s; simpl.
  - intros H; inversion H; subst. auto.
  - destruct (step s a) as [s1| | |] eqn:E; try discriminate.
    intros H Hcl. apply (IH _ H). eapply closed_stays; eassumption.
Qed.

Lemma step_emitter (s : System) (a : Action) :
  is_Some (call_options a) ->
  exists oe, submitted (cl s) a = option_list oe /\
             step s a = lift s (emit_envelope (cl s) oe).
Proof.
  intros [opts Ho]. destruct a; simpl in Ho; try discriminate; simpl; eauto.
Qed.

Lemma submitted_emitter (c : IngressClient) (a : Action) (e : Envelope) :
  submitted c a = [e] -> is_Some (call_options a).
Proof.
  destruct a; simpl; try discriminate; eauto.
Qed.

Lemma submitted_tags (c c' : IngressClient) (a : Action) :
  tags c' = tags c -> submitted c' a = submitted c a.
Proof.
  intros Ht. destruct a; simpl; try reflexivity;
    unfold log_envelope, gauge_envelope, counter_envelope, build;
    by rewrite Ht.
Qed.

Lemma accepted_tags (c c' : IngressClient) (acts : list Action) :
  tags c' = tags c -> accepted c' acts = accepted c acts.
Proof.
  intros Ht. unfold accepted. f_equal.
  induction acts as [|a acts IH]; simpl; [reflexivity|].
  by rewrite IH, (submitted_tags _ _ _ Ht).
Qed.

Lemma step_submit (s : System) (a : Action) (e : Envelope) :
  submitted (cl s) a = [e] -> step s a = lift s (submit (cl s) e).
Proof.
  intros Hsub.
  destruct (step_emitter s a (submitted_emitter _ _ _ Hsub)) as (oe & Hoe & ->).
  rewrite Hsub in Hoe. destruct oe as [e'|]; simpl in Hoe; [|discriminate].
  by inversion Hoe.
Qed.

(** *** C10 *)

(** C10. Once [CloseSend] has closed the queue, every later call of
    [EmitLog], [EmitGauge] or [EmitCounter] panics, and so does every
    later call of [CloseSend]: none of them drops a record silently,
    blocks, or returns. *)
Theorem calls_after_CloseSend_panic (s0 s s' : System) (acts : list Action)
  (a : Action) :
  step s0 CallCloseSend = Next s ->
  run s acts = Next s' ->
  is_Some (call_options a) \/ a = CallCloseSend ->
  step s' a = Panic.
Proof.
  intros Hclose Hrun Ha.
  assert (Chan.closed (envelopes (cl s)) = true) as Hcl.
  { cbn [step startSender] in Hclose. unfold CloseSend_close, Chan.close in Hclose.
    destruct (Chan.closed (envelopes (cl s0))); [discriminate|].
    inversion Hclose; subst s. reflexivity. }
  pose proof (closed_stays_run _ _ _ Hrun Hcl) as Hcl'.
  destruct Ha as [Ha | ->].
  - destruct (step_emitter s' a Ha) as (oe & _ & ->).
    destruct oe as [e|]; simpl; [|reflexivity].
    unfold submit, Chan.send. by rewrite Hcl'.
  - cbn [step startSender]. unfold CloseSend_close, Chan.close. by rewrite Hcl'.
Qed.

(** *** C8 *)

(** C8, as the claim states it, fails: no client option reaches the
    queue, whose capacity is 100 whatever the options are. *)
Lemma queue_capacity_not_configurable :
  ~ exists opts : list IngressOption,
      Chan.cap (envelopes (configure opts default_client)) <> 100%nat.
Proof.
  intros [opts H]. apply H.
  destruct (configure_fixed opts default_client) as (-> & _). reflexivity.
Qed.

(** C8, amended. The queue of a client has capacity 100 under every
    configuration and never holds more. While it is open and full, an
    emitter call blocks with its record, and proceeds with that same
    record, put at the tail of the queue, once the sender goroutine has
    taken one out. While it is open and not full, the call puts the
    record at the tail at once. *)
Theorem queue_capacity_fixed_and_submit_blocks
  (dial : string -> option Err) (opts : list IngressOption) (c : IngressClient)
  (start : Z) (net : nat -> Reply) (acts : list Action) (s : System)
  (a : Action) (e : Envelope) :
  NewIngressClient dial opts = inr c ->
  run (boot start net c) acts = Next s ->
  submitted (cl s) a = [e] ->
  Chan.closed (envelopes (cl s)) = false ->
  Chan.cap (envelopes (cl s)) = 100%nat /\
  (length (Chan.buf (envelopes (cl s))) <= 100)%nat /\
  (length (Chan.buf (envelopes (cl s))) = 100%nat ->
     step s a = NotEnabled /\
     forall s1, step s SenderRecv = Next s1 ->
       exists s2, step s1 a = Next s2 /\
         Chan.buf (envelopes (cl s2)) = Chan.buf (envelopes (cl s1)) ++ [e]) /\
  ((length (Chan.buf (envelopes (cl s))) < 100)%nat ->
     exists s2, step s a = Next s2 /\
       Chan.buf (envelopes (cl s2)) = Chan.buf (envelopes (cl s)) ++ [e]).
Proof.
  intros Hnew Hrun Hsub Hopen.
  assert (wf s) as Hwf by (apply reached_wf; unfold reached; eauto 10).
  destruct Hwf as [_ _ Hcap Hlen].
  split; [exact Hcap|]. split; [exact Hlen|]. split.
  - intros Hfull. split.
    + rewrite (step_submit _ _ _ Hsub). unfold lift, submit, Chan.send.
      rewrite Hopen, Hcap, Hfull. reflexivity.
    + intros s1 Hs1.
      pose proof (step_config _ _ _ Hs1) as (Htags & _).
      assert (submitted (cl s1) a = [e]) as Hsub1
        by (rewrite (submitted_tags _ _ _ Htags); exact Hsub).
      rewrite (step_submit _ _ _ Hsub1).
      cbn [step startSender] in Hs1.
      apply sender_recv_inv in Hs1 as [Hsel [(Hbuf & Hcl & _)
        | (env & rest & Hbuf & [(Hge & c1 & w1 & r & Hf & tm & Hrt & ->) | (Hlt & ->)])]].
      * congruence.
      * apply flush_frame in Hf as (He & _). simpl in He.
        unfold lift, submit, Chan.send. simpl. rewrite He. simpl.
        rewrite Hopen, Hcap. rewrite Hbuf in Hfull. simpl in Hfull.
        replace (length rest) with 99%nat by lia. simpl. eexists. split; [reflexivity|].
        simpl. reflexivity.
      * unfold lift, submit, Chan.send. simpl.
        rewrite Hopen, Hcap. rewrite Hbuf in Hfull. simpl in Hfull.
        replace (length rest) with 99%nat by lia. simpl. eexists. split; [reflexivity|].
        simpl. reflexivity.
  - intros Hroom.
    rewrite (step_submit _ _ _ Hsub). unfold lift, submit, Chan.send.
    rewrite Hopen, Hcap.
    destruct (Nat.ltb_spec (length (Chan.buf (envelopes (cl s)))) 100); [|lia].
    eexists. split; [reflexivity|]. reflexivity.
Qed.

(** ** Flushes on a transport that does not fail *)

Lemma sent_batches_app (l1 l2 : list Call) :
  sent_batches (l1 ++ l2) = sent_batches l1 ++ sent_batches l2.
Proof. apply omap_app. Qed.

Lemma opened_no_send (c : IngressClient) (w : World) (est : list Call) (h : nat) :
  opened c w est h ->
  sent_batches est = [] /\ omap call_failure est = [] /\
  count_calls is_StreamCloseSend est = 0%nat /\ (length est <= 1)%nat.
Proof. destruct 1; simpl; repeat split; lia. Qed.

(** When every call of a [flush] succeeds, the flush opened the stream
    if there was none, sent the batch once, and closed the stream once
    if asked to, in that order. *)
Lemma flush_calls_ok (c : IngressClient) (w : World) (b : list Envelope)
  (close : bool) (new : list Call) (h : option nat) (r : option Err) :
  flush_calls c w b close new h r ->
  omap call_failure new = [] ->
  exists est h0,
    opened c w est h0 /\ h = Some h0 /\ r = None /\
    new = est ++ Send h0 b None :: (if close then [StreamCloseSend h0 None] else []).
Proof.
  destruct 1 as [err Hs | est h0 err Ho | est h0 Ho -> | est h0 r Ho ->]; simpl.
  - discriminate.
  - rewrite omap_app. simpl. intros H. apply app_eq_nil in H as [_ H]. discriminate.
  - intros _. exists est, h0. auto.
  - rewrite omap_app. simpl. intros H. apply app_eq_nil in H as [_ H].
    destruct r; [discriminate|]. exists est, h0. auto.
Qed.

Lemma omap_failure_nil (new : list Call) (w : World) :
  (forall k, (k < length new)%nat ->
     (new !! k : option Call) ≫= call_failure
     = failure (transport w (length (calls w) + k)%nat)) ->
  (forall k, (length (calls w) <= k)%nat -> failure (transport w k) = None) ->
  omap call_failure new = [].
Proof.
  intros Hnew Hok.
  assert (forall k, (k < length new)%nat -> (new !! k : option Call) ≫= call_failure = None) as H.
  { intros k Hk. rewrite (Hnew k Hk). apply Hok. lia. }
  clear Hnew Hok. induction new as [|x new IH]; simpl; [reflexivity|].
  pose proof (H 0%nat ltac:(simpl; lia)) as H0. simpl in H0. rewrite H0.
  apply IH. intros k Hk. apply (H (S k)). simpl. lia.
Qed.

Lemma flush_ok (c c' : IngressClient) (w w' : World) (b : list Envelope)
  (close : bool) (r : option Err) :
  (forall k, (length (calls w) <= k)%nat -> failure (transport w k) = None) ->
  flush c w b close = Some (c', w', r) ->
  r = None /\ printed w' = printed w /\
  exists est h,
    opened c w est h /\ sender c' = Some h /\
    calls w' = calls w ++ est ++
               Send h b None :: (if close then [StreamCloseSend h None] else []).
Proof.
  intros Hok Hf.
  apply flush_spec in Hf as (new & Hfc & Hcalls & Hpr & Hnew).
  pose proof (omap_failure_nil _ _ Hnew Hok) as Hnil.
  apply flush_calls_ok in Hfc as (est & h & Ho & Hh & -> & ->); [|exact Hnil].
  split; [reflexivity|]. split.
  - rewrite Hpr, Hnil. simpl. by rewrite (right_id_L [] (++)).
  - exists est, h. auto.
Qed.

Lemma flush_sends_batch (c c' : IngressClient) (w w' : World) (b : list Envelope)
  (close : bool) (r : option Err) :
  (forall k, failure (transport w k) = None) ->
  flush c w b close = Some (c', w', r) ->
  sent_batches (calls w') = sent_batches (calls w) ++ [b].
Proof.
  intros Hok Hf.
  apply flush_ok in Hf as (_ & _ & est & h & Ho & _ & ->); [|auto].
  apply opened_no_send in Ho as (Hest & _).
  rewrite !sent_batches_app, Hest. simpl. by destruct close.
Qed.

(** ** Ordering *)

Lemma step_conserves (s s' : System) (a : Action) :
  wf s ->
  (forall k, failure (transport (wd s) k) = None) ->
  step s a = Next s' ->
  concat (sent_batches (calls (wd s'))) ++ in_flight s'
  = concat (sent_batches (calls (wd s))) ++ in_flight s ++ submitted (cl s) a.
Proof.
  intros [_ Hd _ _] Hok Hs.
  destruct a.
  1-3: match type of Hs with step _ ?a = _ =>
         destruct (step_emitter s a ltac:(simpl; eauto)) as (oe & Hsub & Hstep) end;
       rewrite Hstep in Hs; rewrite Hsub; clear Hsub Hstep;
       unfold lift in Hs;
       destruct (emit_envelope (cl s) oe) as [c1| |] eqn:E; try discriminate;
       apply emit_envelope_done in E as (e & -> & Hopen & _ & ->);
       inversion Hs; subst s'; clear Hs; simpl;
       destruct (at_select s) eqn:Hsel;
       [ unfold in_flight, at_select in *; simpl in *; rewrite Hsel; simpl;
         by rewrite <- !app_assoc
       | destruct (Hd eq_refl); congruence ].
  - (* CallCloseSend *)
    cbn [step startSender] in Hs. unfold CloseSend_close, Chan.close in Hs.
    destruct (Chan.closed _); [discriminate|].
    inversion Hs; subst s'; simpl. unfold in_flight, at_select; simpl.
    by rewrite !(right_id_L [] (++)).
  - (* ReturnCloseSend *)
    cbn [step startSender] in Hs.
    destruct (closers (wd s)); [discriminate|].
    unfold CloseSend_recv in Hs.
    destruct (closeErrors (cl s)) eqn:Hce; [|discriminate].
    inversion Hs; subst s'; simpl. unfold in_flight, at_select; simpl.
    rewrite Hce. by rewrite !andb_false_r.
  - (* SenderRecv *)
    cbn [step startSender] in Hs.
    apply sender_recv_inv in Hs as [Hsel [(Hbuf & Hcl & c1 & w1 & r & Hf & ->)
      | (env & rest & Hbuf & [(Hge & c1 & w1 & r & Hf & tm & Hrt & ->) | (Hlt & ->)])]].
    + cbn [wd cl gr]. rewrite (flush_sends_batch _ _ _ _ _ _ _ Hok Hf).
      unfold in_flight. rewrite Hsel, Hbuf. unfold at_select; simpl.
      rewrite andb_false_r, concat_app. simpl.
      by rewrite !(right_id_L [] (++)).
    + cbn [wd cl gr]. rewrite (flush_sends_batch _ _ _ _ _ _ _ Hok Hf).
      pose proof (flush_frame _ _ _ _ _ _ _ Hf) as (He & _ & _ & _ & _ & Hce & _).
      apply at_select_true in Hsel as Hsel'. destruct Hsel' as [_ Hnone].
      unfold in_flight. rewrite Hsel, Hbuf. unfold at_select; simpl.
      rewrite Hce, He. simpl. rewrite Hnone, concat_app. simpl.
      rewrite !(right_id_L [] (++)). by rewrite <- !app_assoc.
    + apply at_select_true in Hsel as Hsel'. destruct Hsel' as [_ Hnone].
      unfold in_flight. rewrite Hsel, Hbuf. unfold at_select; simpl.
      rewrite Hnone. simpl. rewrite !(right_id_L [] (++)). by rewrite <- !app_assoc.
  - (* SenderTimer *)
    cbn [step startSender] in Hs.
    apply sender_timer_inv in Hs as [Hsel (tm & Hrecv & [(Hne & c1 & w1 & r & Hf & ->) | (Hb & ->)])].
    + cbn [wd cl gr]. rewrite (flush_sends_batch _ _ _ _ _ _ _ Hok Hf).
      pose proof (flush_frame _ _ _ _ _ _ _ Hf) as (He & _ & _ & _ & _ & Hce & _).
      apply at_select_true in Hsel as Hsel'. destruct Hsel' as [_ Hnone].
      unfold in_flight. rewrite Hsel. unfold at_select; simpl.
      rewrite Hce, He, Hnone, concat_app. simpl.
      rewrite !(right_id_L [] (++)). by rewrite <- !app_assoc.
    + apply at_select_true in Hsel as Hsel'. destruct Hsel' as [_ Hnone].
      unfold in_flight. rewrite Hsel, Hb. unfold at_select; simpl.
      rewrite Hnone. simpl. by rewrite !(right_id_L [] (++)).
  - (* Elapse *)
    inversion Hs; subst s'; simpl. unfold in_flight, at_select; simpl.
    by rewrite !(right_id_L [] (++)).
Qed.

Lemma run_conserves (acts : list Action) (s s' : System) :
  wf s ->
  (forall k, failure (transport (wd s) k) = None) ->
  run s acts = Next s' ->
  concat (sent_batches (calls (wd s'))) ++ in_flight s'
  = concat (sent_batches (calls (wd s))) ++ in_flight s ++ accepted (cl s) acts.
Proof.
  revert s. induction acts as [|a acts IH]; intros s Hwf Hok; simpl.
  - intros H; inversion H; subst. unfold accepted; simpl.
    by rewrite !(right_id_L [] (++)).
  - destruct (step s a) as [s1| | |] eqn:E; try discriminate.
    intros Hrun.
    pose proof (step_config _ _ _ E) as (Htags & _ & _ & _ & Htr & _).
    rewrite (IH s1); [| eapply step_wf; eassumption | by rewrite Htr | exact Hrun].
    rewrite app_assoc, (step_conserves _ _ _ Hwf Hok E).
    rewrite (accepted_tags _ _ _ Htags).
    unfold accepted. simpl. by rewrite <- !app_assoc.
Qed.

(** *** C1 *)

(** C1. On a transport that never fails, the batches handed to [Send],
    concatenated in call order and followed by the records still held
    (the batch of the goroutine, then the queue), are the records in the
    order the queue accepted them; once the final flush is done nothing
    is held, and the concatenation of the sent batches is that sequence
    itself. *)
Theorem sent_batches_preserve_order
  (dial : string -> option Err) (opts : list IngressOption) (c : IngressClient)
  (start : Z) (net : nat -> Reply) (acts : list Action) (s : System) :
  NewIngressClient dial opts = inr c ->
  failure_free net ->
  run (boot start net c) acts = Next s ->
  concat (sent_batches (calls (wd s))) ++ in_flight s = accepted c acts /\
  (at_select s = false ->
     concat (sent_batches (calls (wd s))) = accepted c acts).
Proof.
  intros Hnew Hff Hrun.
  pose proof (new_client_fresh _ _ _ Hnew) as (He & Hce & _).
  pose proof (run_conserves acts _ _ (boot_wf start net c Hce He) Hff Hrun) as H.
  simpl in H. unfold in_flight in H at 2.
  assert (at_select (boot start net c) = true) as Hsel
    by (apply at_select_true; simpl; auto).
  rewrite Hsel in H. simpl in H. rewrite He in H. simpl in H.
  split; [exact H|].
  intros Hn. unfold in_flight in H. rewrite Hn in H.
  by rewrite (right_id_L [] (++)) in H.
Qed.

(** ** Steps that flush and steps that do not *)

Lemma step_cases (s s' : System) (a : Action) :
  wf s ->
  step s a = Next s' ->
  quiet s s' \/ exists c0 b close r, flushing s a s' c0 b close r.
Proof.
  intros [Ht _ _ _] Hs. destruct a; cbn [step startSender] in Hs.
  1-3: left; left; unfold lift, EmitLog, EmitGauge, EmitCounter in Hs;
       match type of Hs with context [emit_envelope ?c ?oe] =>
         destruct (emit_envelope c oe) as [c1| |] eqn:E; try discriminate;
         apply emit_envelope_done in E as (e & _ & _ & _ & ->) end;
       inversion Hs; subst s'; simpl; auto.
  - left; left. unfold CloseSend_close, Chan.close in Hs.
    destruct (Chan.closed _); [discriminate|].
    inversion Hs; subst s'; simpl; auto.
  - left; right. destruct (closers (wd s)); [discriminate|].
    unfold CloseSend_recv in Hs.
    destruct (closeErrors (cl s)); [|discriminate].
    inversion Hs; subst s'; simpl; auto.
  - apply sender_recv_inv in Hs as [Hsel [(Hbuf & Hcl & c1 & w1 & r & Hf & ->)
      | (env & rest & Hbuf & [(Hge & c1 & w1 & r & Hf & tm & Hrt & ->) | (Hlt & ->)])]].
    + right. exists (cl s), (batch (gr s)), true, r.
      pose proof (flush_frame _ _ _ _ _ _ _ Hf) as (He & _).
      apply at_select_true in Hsel as Hsel'. destruct Hsel' as [Hret _].
      split; simpl; try discriminate; auto 10.
      * exists c1. auto.
      * exists []. simpl. rewrite He, (right_id_L [] (++)). auto.
    + right.
      exists (set_envelopes
                (Chan.mk rest (Chan.cap (envelopes (cl s)))
                   (Chan.closed (envelopes (cl s)))) (cl s)),
             (batch (gr s) ++ [env]), false, r.
      pose proof (flush_frame _ _ _ _ _ _ _ Hf) as (He & _ & _ & Hint & _ & Hce & _).
      apply at_select_true in Hsel as Hsel'. destruct Hsel' as [_ Hnone].
      rewrite (restart_timer_armed _ _ _ (Ht Hsel)) in Hrt. inversion Hrt; subst tm.
      split; simpl; try discriminate; auto 10.
      * exists c1. auto.
      * exists [env]. rewrite He. simpl. rewrite Hbuf. auto.
      * intros _. split.
        { apply at_select_true. simpl. rewrite Hce. auto. }
        split; [intros H; apply app_eq_nil in H as [_ H]; discriminate|].
        split; [reflexivity|].
        unfold armed_for. rewrite Hint. reflexivity.
    + left; left. simpl. auto.
  - apply sender_timer_inv in Hs as [Hsel (tm & Hrecv & [(Hne & c1 & w1 & r & Hf & ->) | (Hb & ->)])].
    + right. exists (cl s), (batch (gr s)), false, r.
      pose proof (flush_frame _ _ _ _ _ _ _ Hf) as (He & _ & _ & Hint & _ & Hce & _).
      apply at_select_true in Hsel as Hsel'. destruct Hsel' as [_ Hnone].
      split; simpl; try discriminate; auto 10.
      * exists c1. auto.
      * exists []. simpl. rewrite He, (right_id_L [] (++)). auto.
      * intros _. split.
        { apply at_select_true. simpl. rewrite Hce. auto. }
        split; [assumption|]. split; [reflexivity|].
        unfold armed_for. rewrite Hint.
        apply (timer_recv_reset _ _ _ _ _ (Ht Hsel) Hrecv).
    + left; left. simpl. auto.
  - left; left. inversion Hs; subst s'; simpl; auto.
Qed.

Lemma flush_calls_nonempty (c : IngressClient) (w : World) (b : list Envelope)
  (close : bool) (new : list Call) (h : option nat) (r : option Err) :
  flush_calls c w b close new h r -> new <> [].
Proof.
  destruct 1; try discriminate; intros Hn; apply app_eq_nil in Hn as [_ Hn]; discriminate.
Qed.

Lemma quiet_calls (s s' : System) :
  quiet s s' ->
  calls (wd s') = calls (wd s) /\ printed (wd s') = printed (wd s) /\
  sender (cl s') = sender (cl s).
Proof. intros [(? & ? & ? & _)|(? & ? & ? & _)]; auto. Qed.

(** With a logger that is not nil, [flush] returns. *)
Lemma flush_total (c : IngressClient) (w : World) (b : list Envelope) (close : bool) :
  logger c <> NilLogger ->
  exists c' w' r, flush c w b close = Some (c', w', r).
Proof.
  intros Hl. unfold_emit. split_emit; eauto; congruence.
Qed.

Lemma sender_step_total (s : System) (a : Action) :
  wf s ->
  logger (cl s) <> NilLogger ->
  a = SenderRecv \/ a = SenderTimer ->
  step s a = NotEnabled \/ exists s', step s a = Next s'.
Proof.
  intros [Ht _ _ _] Hl [-> | ->]; cbn [step startSender].
  - unfold sender_recv.
    destruct (at_select s) eqn:Hsel; [|auto].
    specialize (Ht eq_refl).
    unfold Chan.recv.
    destruct (Chan.buf (envelopes (cl s))) as [|env rest].
    + destruct (Chan.closed (envelopes (cl s))); [|auto].
      destruct (flush_total (cl s) (wd s) (batch (gr s)) true Hl)
        as (c1 & w1 & r & ->). eauto.
    + destruct (_ >=? _); [|eauto].
      match goal with |- context [flush ?c0 ?w ?b false] =>
        destruct (flush_total c0 w b false Hl) as (c1 & w1 & r & ->) end.
      rewrite (restart_timer_armed _ _ _ Ht). eauto.
  - unfold sender_timer.
    destruct (at_select s); [|auto].
    destruct (Timer.recv _ _); [|auto].
    destruct (0 <? _); [|eauto].
    destruct (flush_total (cl s) (wd s) (batch (gr s)) false Hl)
      as (c1 & w1 & r & ->). eauto.
Qed.

Lemma sender_step_loop (s s' : System) (a : Action) :
  a = SenderRecv \/ a = SenderTimer ->
  step s a = Next s' ->
  at_select s = true /\
  returned (gr s') = false /\
  (at_select s' = false ->
     a = SenderRecv /\
     Chan.closed (envelopes (cl s)) = true /\
     Chan.buf (envelopes (cl s)) = []).
Proof.
  intros [-> | ->] Hs; cbn [step startSender] in Hs.
  - apply sender_recv_inv in Hs as [Hsel [(Hbuf & Hcl & c1 & w1 & r & Hf & ->)
      | (env & rest & Hbuf & [(Hge & c1 & w1 & r & Hf & tm & Hrt & ->) | (Hlt & ->)])]];
      apply at_select_true in Hsel as Hsel'; destruct Hsel' as [Hret Hnone];
      (split; [assumption|]); simpl; (split; [assumption || reflexivity|]).
    + auto.
    + apply flush_frame in Hf as (_ & _ & _ & _ & _ & Hce & _).
      unfold at_select; simpl. rewrite Hce. simpl. rewrite Hnone. discriminate.
    + unfold at_select; simpl. rewrite Hnone. discriminate.
  - apply sender_timer_inv in Hs as [Hsel (tm & Hrecv & [(Hne & c1 & w1 & r & Hf & ->) | (Hb & ->)])];
      apply at_select_true in Hsel as Hsel'; destruct Hsel' as [Hret Hnone];
      (split; [assumption|]); simpl; (split; [reflexivity|]).
    + apply flush_frame in Hf as (_ & _ & _ & _ & _ & Hce & _).
      unfold at_select; simpl. rewrite Hce, Hnone. discriminate.
    + unfold at_select; simpl. rewrite Hnone. discriminate.
Qed.

(** What a step adds to the histories of transport calls and of printed
    lines: every error a call returned is printed, in order, and nothing
    else is. *)
Lemma step_logs (s s' : System) (a : Action) :
  wf s ->
  step s a = Next s' ->
  exists new,
    calls (wd s') = calls (wd s) ++ new /\
    printed (wd s') = printed (wd s)
                      ++ map (log_line (logger (cl s))) (omap call_failure new).
Proof.
  intros Hwf Hs.
  destruct (step_cases _ _ _ Hwf Hs) as [Hq | (c0 & b & close & r & Hfl)].
  - apply quiet_calls in Hq as (-> & -> & _).
    exists []. simpl. by rewrite !(right_id_L [] (++)).
  - destruct Hfl as [_ _ _ Hlog (c1 & Hf & _) _ _ _].
    apply flush_spec in Hf as (new & _ & Hcalls & Hpr & _).
    exists new. rewrite <- Hlog. auto.
Qed.

(** *** C7 *)

(** C7 fails as stated: [WithLogger] takes a nil logger like any
    other, and [flush] calls [Printf] on it at the first transport error;
    the sender goroutine panics there, on a transport error. *)
Lemma nil_logger_panics_on_flush_error :
  NewIngressClient dial_ok [WithBatchMaxSize 1; WithLogger NilLogger]
  = inr client_nil /\
  run (boot 0 broken_send client_nil) [line 1]
  = Next (after (boot 0 broken_send client_nil) [line 1]) /\
  step (after (boot 0 broken_send client_nil) [line 1]) SenderRecv = Panic.
Proof.
  split; [reflexivity|]. split; vm_compute; reflexivity.
Qed.

(** C7, amended. When the logger of the client is not nil, whatever the
    transport answers, a step of the sender goroutine neither panics nor
    blocks inside the loop body. Every error returned by a transport
    call of the step is printed on the logger of the client and goes no
    further: after the step the goroutine has not returned, and it is
    back at its [select] unless the step received the end-of-stream
    marker from the closed and drained queue. *)
Theorem flush_errors_logged_and_swallowed
  (dial : string -> option Err) (opts : list IngressOption) (c : IngressClient)
  (start : Z) (net : nat -> Reply) (acts : list Action) (s : System)
  (a : Action) :
  NewIngressClient dial opts = inr c ->
  logger c <> NilLogger ->
  run (boot start net c) acts = Next s ->
  a = SenderRecv \/ a = SenderTimer ->
  step s a <> Panic /\
  step s a <> Deadlock /\
  forall s', step s a = Next s' ->
    (exists new,
       calls (wd s') = calls (wd s) ++ new /\
       printed (wd s') = printed (wd s)
                         ++ map (log_line (logger c)) (omap call_failure new)) /\
    returned (gr s') = false /\
    (at_select s' = false ->
       a = SenderRecv /\
       Chan.closed (envelopes (cl s)) = true /\
       Chan.buf (envelopes (cl s)) = []).
Proof.
  intros Hnew Hnil Hrun Ha.
  assert (wf s) as Hwf by (apply reached_wf; unfold reached; eauto 10).
  pose proof (run_config _ _ _ Hrun) as (_ & _ & _ & Hlog & _). simpl in Hlog.
  assert (logger (cl s) <> NilLogger) as Hnil' by congruence.
  destruct (sender_step_total s a Hwf Hnil' Ha) as [Hn | [s1 Hn]].
  - rewrite Hn. repeat split; discriminate.
  - rewrite Hn. split; [discriminate|]. split; [discriminate|].
    intros s' Hs'. inversion Hs'; subst s1.
    destruct (sender_step_loop _ _ _ Ha Hn) as (_ & Hret & Hend).
    split; [|auto]. rewrite <- Hlog. by apply (step_logs s s' a).
Qed.

(** ** The final flush and the return of CloseSend *)


(** The step that receives the end-of-stream marker. *)
Lemma drain_step (s s1 : System) :
  step s SenderRecv = Next s1 ->
  at_select s1 = false ->
  Chan.closed (envelopes (cl s)) = true /\
  Chan.buf (envelopes (cl s)) = [] /\
  exists c1 r,
    flush (cl s) (wd s) (batch (gr s)) true = Some (c1, wd s1, r) /\
    sender (cl s1) = sender c1 /\
    closeErrors (cl s1) = Some r.
Proof.
  intros Hs Hn.
  destruct (sender_step_loop _ _ _ (or_introl eq_refl) Hs) as (_ & _ & Hend).
  destruct (Hend Hn) as (_ & Hcl & Hbuf).
  split; [assumption|]. split; [assumption|].
  cbn [step startSender] in Hs.
  apply sender_recv_inv in Hs as [Hsel [(_ & _ & c1 & w1 & r & Hf & ->)
    | (env & rest & Hbuf' & _)]]; [|congruence].
  exists c1, r. simpl. auto.
Qed.

Lemma not_at_select_sender (s : System) (a : Action) :
  at_select s = false ->
  a = SenderRecv \/ a = SenderTimer ->
  step s a = NotEnabled.
Proof.
  intros Hn [-> | ->]; cbn [step startSender]; unfold sender_recv, sender_timer; by rewrite Hn.
Qed.

Lemma drained_step (cs : list Call) (r : option Err) (rs : list (option Err))
  (s s' : System) (a : Action) :
  drained cs r rs s -> step s a = Next s' -> drained cs r rs s'.
Proof.
  intros [Hcs Hd] Hs.
  assert (at_select s = false) as Hn.
  { apply at_select_false. destruct Hd as [[-> _] | [_ ->]]; [right|left]; congruence. }
  destruct a; try (rewrite (not_at_select_sender s _ Hn) in Hs by auto; discriminate);
    cbn [step startSender] in Hs.
  1-3: unfold lift, EmitLog, EmitGauge, EmitCounter in Hs;
       match type of Hs with context [emit_envelope ?c ?oe] =>
         destruct (emit_envelope c oe) as [c1| |] eqn:E; try discriminate;
         apply emit_envelope_done in E as (e & _ & _ & _ & ->) end;
       inversion Hs; subst s'; split; simpl; auto.
  - unfold CloseSend_close, Chan.close in Hs.
    destruct (Chan.closed _); [discriminate|].
    inversion Hs; subst s'; split; simpl; auto.
  - destruct (closers (wd s)); [discriminate|].
    unfold CloseSend_recv in Hs.
    destruct (closeErrors (cl s)); [|discriminate].
    inversion Hs; subst s'; split; simpl; auto.
  - inversion Hs; subst s'; split; simpl; auto.
Qed.

Lemma drained_run (cs : list Call) (r : option Err) (rs : list (option Err))
  (acts : list Action) (s s' : System) :
  drained cs r rs s -> run s acts = Next s' -> drained cs r rs s'.
Proof.
  revert s. induction acts as [|a acts IH]; intros s Hd; simpl.
  - intros H; inversion H; subst; assumption.
  - destruct (step s a) as [s1| | |] eqn:E; try discriminate.
    apply IH. eapply drained_step; eassumption.
Qed.

Lemma drained_return (cs : list Call) (r : option Err) (rs : list (option Err))
  (s s' : System) :
  drained cs r rs s ->
  step s ReturnCloseSend = Next s' ->
  calls (wd s') = cs /\ closeResults (wd s') = rs ++ [r] /\
  sender (cl s') = sender (cl s).
Proof.
  intros [Hcs Hd] Hs. cbn [step startSender] in Hs.
  destruct (closers (wd s)); [discriminate|].
  unfold CloseSend_recv in Hs.
  destruct (closeErrors (cl s)) as [r'|] eqn:Hce; [|discriminate].
  destruct Hd as [[Hr Hrs] | [Hr _]]; [|discriminate].
  inversion Hr; subst r'. inversion Hs; subst s'; simpl. rewrite Hrs. auto.
Qed.

Lemma blocked_until_drained (s : System) :
  at_select s = true -> step s ReturnCloseSend = NotEnabled.
Proof.
  intros Hsel. apply at_select_true in Hsel as [_ Hnone]. cbn [step startSender].
  destruct (closers (wd s)); [reflexivity|].
  unfold CloseSend_recv. by rewrite Hnone.
Qed.

Lemma only_CloseSend_returns (s s' : System) (a : Action) :
  a <> ReturnCloseSend ->
  step s a = Next s' ->
  closeResults (wd s') = closeResults (wd s).
Proof.
  intros Ha Hs. destruct a; try congruence; cbn [step startSender] in Hs.
  1-3: unfold lift, EmitLog, EmitGauge, EmitCounter in Hs;
       match type of Hs with context [emit_envelope ?c ?oe] =>
         destruct (emit_envelope c oe) as [c1| |] eqn:E; try discriminate end;
       inversion Hs; subst s'; reflexivity.
  - destruct (CloseSend_close (cl s)); try discriminate.
    inversion Hs; subst s'; reflexivity.
  - apply sender_recv_inv in Hs as [Hsel [(Hbuf & Hcl & c1 & w1 & r & Hf & ->)
      | (env & rest & Hbuf & [(Hge & c1 & w1 & r & Hf & tm & Hrt & ->) | (Hlt & ->)])]];
      try reflexivity;
      apply flush_frame in Hf as (_ & _ & _ & _ & _ & _ & _ & _ & Hr & _);
      exact Hr.
  - apply sender_timer_inv in Hs as [Hsel (tm & Hrecv & [(Hne & c1 & w1 & r & Hf & ->) | (Hb & ->)])];
      try reflexivity;
      apply flush_frame in Hf as (_ & _ & _ & _ & _ & _ & _ & _ & Hr & _);
      exact Hr.
  - inversion Hs; subst s'; reflexivity.
Qed.

(** *** C5 *)



(** *** C6 *)

(** C6, amended. When the goroutine receives the end-of-stream marker,
    and no call of the final flush other than the stream close fails,
    the flush opens a stream if the client has none, hands the pending
    batch, empty or not, to [Send] once, and then closes the stream once;
    these are all the transport calls made up to the return of
    [CloseSend], which cannot return before and returns the result of
    the close. *)
Theorem final_flush_sends_once_then_closes
  (s s1 s2 s3 : System) (acts : list Action) (new : list Call) :
  at_select s = true ->
  step s SenderRecv = Next s1 ->
  at_select s1 = false ->
  run s1 acts = Next s2 ->
  step s2 ReturnCloseSend = Next s3 ->
  calls (wd s3) = calls (wd s) ++ new ->
  Forall (fun k => is_StreamCloseSend k = false -> call_ok k) new ->
  step s ReturnCloseSend = NotEnabled /\
  exists est h r,
    opened (cl s) (wd s) est h /\
    new = est ++ [Send h (batch (gr s)) None; StreamCloseSend h r] /\
    sent_batches new = [batch (gr s)] /\
    count_calls is_StreamCloseSend new = 1%nat /\
    closeResults (wd s3) = closeResults (wd s) ++ [r].
Proof.
  intros Hsel Hs1 Hn Hrun Hret Hcalls Hok.
  split; [by apply blocked_until_drained|].
  destruct (drain_step _ _ Hs1 Hn) as (_ & _ & c1 & r & Hf & _ & Hce).
  apply flush_spec in Hf as (new' & Hfc & Hcalls' & _ & _).
  assert (drained (calls (wd s) ++ new') r (closeResults (wd s)) s1) as Hd.
  { split; [assumption|]. left. split; [assumption|].
    apply (only_CloseSend_returns s s1 SenderRecv); [discriminate|assumption]. }
  pose proof (drained_return _ _ _ _ _ (drained_run _ _ _ _ _ _ Hd Hrun) Hret)
    as (Hc3 & Hr3 & _).
  rewrite Hc3 in Hcalls. apply app_inv_head in Hcalls. subst new'.
  destruct Hfc as [err Hs | est h0 err Ho | est h0 Ho Hc | est h0 r Ho Hc].
  - inversion Hok as [|? ? Hk _]; subst. specialize (Hk eq_refl). discriminate.
  - apply Forall_app in Hok as [_ Hok].
    inversion Hok as [|? ? Hk _]; subst. specialize (Hk eq_refl). discriminate.
  - discriminate.
  - exists est, h0, r. split; [assumption|]. split; [reflexivity|].
    destruct (opened_no_send _ _ _ _ Ho) as (Hsb & _ & Hcc & _).
    split; [|split; [|assumption]].
    + rewrite sent_batches_app, Hsb. reflexivity.
    + unfold count_calls in *. rewrite filter_app, length_app, Hcc. reflexivity.
Qed.

(** ** After a failed send *)

Lemma flushing_calls (s s' : System) (a : Action) (c0 : IngressClient)
  (b : list Envelope) (close : bool) (r : option Err) :
  flushing s a s' c0 b close r ->
  exists new c1,
    new <> [] /\
    calls (wd s') = calls (wd s) ++ new /\
    sender (cl s') = sender c1 /\
    flush_calls c0 (wd s) b close new (sender c1) r.
Proof.
  intros [_ _ _ _ (c1 & Hf & Hs) _ _ _].
  apply flush_spec in Hf as (new & Hfc & Hcalls & _ & _).
  exists new, c1. split; [eapply flush_calls_nonempty; eassumption|]. auto.
Qed.


Lemma step_keeps_sender (s s' : System) (a : Action) :
  wf s ->
  step s a = Next s' ->
  exists new, calls (wd s') = calls (wd s) ++ new /\
    (new = [] -> sender (cl s') = sender (cl s)).
Proof.
  intros Hwf Hs.
  destruct (step_cases _ _ _ Hwf Hs) as [Hq | (c0 & b & close & r & Hfl)].
  - apply quiet_calls in Hq as (Hc & _ & Hsd). exists [].
    rewrite (right_id_L [] (++)). auto.
  - apply flushing_calls in Hfl as (new & c1 & Hne & Hc & _).
    exists new. split; [assumption|]. intros; contradiction.
Qed.

Lemma run_keeps_sender (acts : list Action) (s s' : System) :
  wf s ->
  run s acts = Next s' ->
  exists new, calls (wd s') = calls (wd s) ++ new /\
    (new = [] -> sender (cl s') = sender (cl s)).
Proof.
  revert s. induction acts as [|a acts IH]; intros s Hwf; simpl.
  - intros H; inversion H; subst. exists []. by rewrite (right_id_L [] (++)).
  - destruct (step s a) as [s1| | |] eqn:E; try discriminate.
    intros Hrun.
    destruct (step_keeps_sender _ _ _ Hwf E) as (n1 & Hc1 & Hs1).
    destruct (IH _ (step_wf _ _ _ Hwf E) Hrun) as (n2 & Hc2 & Hs2).
    exists (n1 ++ n2). rewrite Hc2, Hc1, <- app_assoc. split; [reflexivity|].
    intros Hnil. apply app_eq_nil in Hnil as [-> ->].
    rewrite Hs2, Hs1; reflexivity.
Qed.

(** A flush made when the client has no stream opens one first, with
    exactly one [BatchSender] call, and sends on it only if that call
    succeeded. *)
Lemma flush_calls_without_stream (c : IngressClient) (w : World) (b : list Envelope)
  (close : bool) (new : list Call) (h : option nat) (r : option Err) :
  sender c = None ->
  flush_calls c w b close new h r ->
  exists e rest,
    new = BatchSender e :: rest /\
    count_calls is_BatchSender rest = 0%nat /\
    match e with
    | Some _ => rest = []
    | None => exists r' rest', rest = Send (length (calls w)) b r' :: rest'
    end.
Proof.
  intros Hnone Hfc.
  destruct Hfc as [err Hs | est h0 err Ho | est h0 Ho Hc | est h0 r Ho Hc].
  - exists (Some err), []. auto.
  - destruct Ho as [h0 Hl|_]; [congruence|]. simpl. eexists None, _.
    split; [reflexivity|]. split; [reflexivity|]. eauto.
  - destruct Ho as [h0 Hl|_]; [congruence|]. simpl. eexists None, _.
    split; [reflexivity|]. split; [reflexivity|]. eauto.
  - destruct Ho as [h0 Hl|_]; [congruence|]. simpl. eexists None, _.
    split; [reflexivity|]. split; [reflexivity|]. eauto.
Qed.

Lemma flush_calls_send_failed (c : IngressClient) (w : World) (b b' : list Envelope)
  (close : bool) (new : list Call) (h : option nat) (r : option Err)
  (h' : nat) (err : Err) :
  flush_calls c w b close new h r ->
  last new = Some (Send h' b' (Some err)) ->
  h = None /\ b' = b /\ r = Some err.
Proof.
  destruct 1 as [e Hs | est h0 e Ho | est h0 Ho Hc | est h0 r Ho Hc]; simpl.
  - discriminate.
  - rewrite last_snoc. intros H; inversion H; subst. auto.
  - rewrite last_snoc. discriminate.
  - rewrite last_app_cons. simpl. discriminate.
Qed.

(** *** C4 *)

(** C4. When a step of the sender goroutine ends on a [Send] that
    failed, the client is left without a stream handle, the batch that
    was handed to [Send] is gone from the goroutine, and the queue has
    got nothing back. The handle stays absent until the next step that
    calls the transport, and that step begins with one [BatchSender]
    call, its only one, followed by the [Send] on the new stream if the
    stream was opened and by nothing otherwise. *)
Theorem send_failure_drops_stream_and_batch
  (dial : string -> option Err) (opts : list IngressOption) (c : IngressClient)
  (start : Z) (net : nat -> Reply) (acts0 acts : list Action)
  (s s' s1 s2 : System) (a a1 : Action)
  (h : nat) (b : list Envelope) (err : Err) :
  NewIngressClient dial opts = inr c ->
  run (boot start net c) acts0 = Next s ->
  step s a = Next s' ->
  calls (wd s') <> calls (wd s) ->
  last (calls (wd s')) = Some (Send h b (Some err)) ->
  run s' acts = Next s1 ->
  calls (wd s1) = calls (wd s') ->
  step s1 a1 = Next s2 ->
  calls (wd s2) <> calls (wd s1) ->
  sender (cl s') = None /\
  (at_select s' = true -> batch (gr s') = []) /\
  (exists taken,
     Chan.buf (envelopes (cl s)) = taken ++ Chan.buf (envelopes (cl s')) /\
     b = batch (gr s) ++ taken) /\
  sender (cl s1) = None /\
  exists e rest,
    calls (wd s2) = calls (wd s1) ++ BatchSender e :: rest /\
    count_calls is_BatchSender rest = 0%nat /\
    match e with
    | Some _ => rest = []
    | None => exists b' r' rest',
        rest = Send (length (calls (wd s1))) b' r' :: rest'
    end.
Proof.
  intros Hnew Hrun0 Hs Hchg Hlast Hrun Hsame Hs1 Hchg1.
  assert (wf s) as Hwf by (apply reached_wf; unfold reached; eauto 10).
  pose proof (step_wf _ _ _ Hwf Hs) as Hwf'.
  pose proof (run_wf _ _ _ Hwf' Hrun) as Hwf1.
  (* the failing step *)
  destruct (step_cases _ _ _ Hwf Hs) as [Hq | (c0 & b0 & close & r & Hfl)].
  { apply quiet_calls in Hq as (Hc & _). congruence. }
  destruct (flushing_calls _ _ _ _ _ _ _ Hfl) as (new & c1 & Hne & Hcalls & Hsd & Hfc).
  rewrite Hcalls, last_app in Hlast.
  destruct (last new) as [k|] eqn:Hl; [|apply last_None in Hl; contradiction].
  inversion Hlast; subst k; clear Hlast.
  destruct (flush_calls_send_failed _ _ _ _ _ _ _ _ _ _ Hfc Hl) as (Hh & -> & ->).
  assert (sender (cl s') = None) as Hnone by congruence.
  split; [exact Hnone|].
  destruct Hfl as [_ _ _ _ _ Htaken Hfinal Hloop].
  split.
  { intros Hsel'. destruct close.
    - destruct (Hfinal eq_refl) as (_ & _ & _ & _ & Hce & _).
      apply at_select_true in Hsel' as [_ Hn]. congruence.
    - by destruct (Hloop eq_refl) as (_ & _ & Hb & _). }
  split; [exact Htaken|].
  (* the handle stays absent *)
  assert (sender (cl s1) = None) as Hnone1.
  { destruct (run_keeps_sender _ _ _ Hwf' Hrun) as (n & Hc & Hkeep).
    rewrite <- Hnone. apply Hkeep.
    rewrite Hc in Hsame. apply (app_inv_head (calls (wd s'))).
    by rewrite (right_id_L [] (++)). }
  split; [exact Hnone1|].
  (* the next flush *)
  destruct (step_cases _ _ _ Hwf1 Hs1) as [Hq | (c2 & b2 & close2 & r2 & Hfl2)].
  { apply quiet_calls in Hq as (Hc & _). congruence. }
  destruct (flushing_calls _ _ _ _ _ _ _ Hfl2) as (new2 & c3 & _ & Hcalls2 & _ & Hfc2).
  destruct Hfl2 as [_ _ Hsd2 _ _ _ _ _].
  assert (sender c2 = None) as Hnone2 by congruence.
  destruct (flush_calls_without_stream _ _ _ _ _ _ _ Hnone2 Hfc2)
    as (e & rest & -> & Hcount & Hshape).
  exists e, rest. split; [assumption|]. split; [assumption|].
  destruct e; [assumption|]. destruct Hshape as (r' & rest' & ->). eauto.
Qed.

(** ** The flush timer *)

(** A step leaves the timer alone or leaves it armed, its channel empty,
    for a full interval after an instant of the step. *)
Lemma step_timer (s s' : System) (a : Action) :
  wf s ->
  step s a = Next s' ->
  t (gr s') = t (gr s) \/
  exists n, now (wd s) <= n /\
    armed_for (n + batchFlushInterval (cl s)) (t (gr s')).
Proof.
  intros Hwf Hs.
  destruct (step_cases _ _ _ Hwf Hs) as [Hq | (c0 & b & close & r & Hfl)].
  - destruct Hwf as [Ht _ _ _].
    destruct a; cbn [step startSender] in Hs.
    1-3: left; unfold lift, EmitLog, EmitGauge, EmitCounter in Hs;
         match type of Hs with context [emit_envelope ?c ?oe] =>
           destruct (emit_envelope c oe) as [c1| |] eqn:E; try discriminate end;
         inversion Hs; subst s'; reflexivity.
    + left. destruct (CloseSend_close (cl s)); try discriminate.
      inversion Hs; subst s'; reflexivity.
    + left. destruct (closers (wd s)); [discriminate|].
      destruct (CloseSend_recv (cl s)) as [[r c1]| |]; try discriminate.
      inversion Hs; subst s'; reflexivity.
    + apply sender_recv_inv in Hs as [Hsel [(Hbuf & Hcl & c1 & w1 & r & Hf & ->)
        | (env & rest & Hbuf & [(Hge & c1 & w1 & r & Hf & tm & Hrt & ->) | (Hlt & ->)])]].
      * left. reflexivity.
      * right. exists (now w1).
        pose proof (flush_frame _ _ _ _ _ _ _ Hf) as (_ & _ & _ & Hint & _ & _ & _ & _ & _ & Hnow).
        rewrite (restart_timer_armed _ _ _ (Ht Hsel)) in Hrt. inversion Hrt; subst tm.
        split; [exact Hnow|]. simpl. unfold armed_for. by rewrite Hint.
      * left. reflexivity.
    + apply sender_timer_inv in Hs as [Hsel (tm & Hrecv & [(Hne & c1 & w1 & r & Hf & ->) | (Hb & ->)])].
      * right. exists (now w1).
        pose proof (flush_frame _ _ _ _ _ _ _ Hf) as (_ & _ & _ & Hint & _ & _ & _ & _ & _ & Hnow).
        split; [exact Hnow|]. simpl. unfold armed_for. rewrite Hint.
        apply (timer_recv_reset _ _ _ _ _ (Ht Hsel) Hrecv).
      * right. exists (now (wd s)). split; [lia|]. simpl.
        apply (timer_recv_reset _ _ _ _ _ (Ht Hsel) Hrecv).
    + left. inversion Hs; subst s'; reflexivity.
  - destruct Hfl as [_ Ha _ _ (c1 & Hf & _) _ Hfinal Hloop].
    destruct close.
    + left. destruct (Hfinal eq_refl) as (-> & _).
      cbn [step startSender] in Hs.
      apply sender_recv_inv in Hs as [Hsel [(Hbuf & Hcl & c2 & w2 & r2 & Hf2 & ->)
        | (env & rest & Hbuf & _)]]; [reflexivity|].
      destruct (Hfinal eq_refl) as (_ & _ & Hnil & _). congruence.
    + right. destruct (Hloop eq_refl) as (_ & _ & _ & Harm).
      exists (now (wd s')). split; [|exact Harm].
      by apply step_config in Hs as (_ & _ & _ & _ & _ & Hnow).
Qed.

Lemma step_silent (T0 T : Z) (s s' : System) (a : Action) :
  wf s ->
  T = T0 + batchFlushInterval (cl s) ->
  silent_until T0 T s ->
  step s a = Next s' ->
  silent_until T0 T s'.
Proof.
  intros Hwf HT (H0 & Hp & Hd) Hs.
  pose proof (step_config _ _ _ Hs) as (_ & _ & _ & _ & _ & Hnow).
  unfold silent_until.
  destruct (step_timer _ _ _ Hwf Hs) as [-> | (n & Hn & Harm)].
  - split; [lia|]. split; [|exact Hd].
    intros Hpe. specialize (Hp Hpe). lia.
  - unfold armed_for in Harm. rewrite Harm. simpl.
    split; [lia|]. split; [discriminate|].
    intros d Hd'. inversion Hd'; subst. lia.
Qed.

Lemma run_silent (T0 T : Z) (acts : list Action) (s s' : System) :
  wf s ->
  T = T0 + batchFlushInterval (cl s) ->
  silent_until T0 T s ->
  run s acts = Next s' ->
  silent_until T0 T s'.
Proof.
  revert s. induction acts as [|a acts IH]; intros s Hwf HT Hsil; simpl.
  - intros H; inversion H; subst; assumption.
  - destruct (step s a) as [s1| | |] eqn:E; try discriminate.
    apply IH.
    + eapply step_wf; eassumption.
    + apply step_config in E as (_ & _ & -> & _). exact HT.
    + eapply step_silent; eassumption.
Qed.

(** *** C3 *)

(** C3. After a step of the sender goroutine that flushed and went back
    to the [select] (a flush triggered by the batch size or by the
    timer), the timer runs, armed for one full flush interval after the
    instant the flush returned, and its channel is empty: a value that
    had been left unreceived by an earlier firing has been drained. No
    later step can take the timer case of the [select] before that
    instant, whatever happens in between. *)
Theorem flush_restarts_timer_for_full_interval
  (dial : string -> option Err) (opts : list IngressOption) (c : IngressClient)
  (start : Z) (net : nat -> Reply) (acts : list Action)
  (s s' : System) (a : Action) :
  NewIngressClient dial opts = inr c ->
  run (boot start net c) acts = Next s ->
  step s a = Next s' ->
  calls (wd s') <> calls (wd s) ->
  at_select s' = true ->
  armed_for (now (wd s') + batchFlushInterval c) (t (gr s')) /\
  forall acts' s2 s3,
    run s' acts' = Next s2 ->
    step s2 SenderTimer = Next s3 ->
    now (wd s') + batchFlushInterval c <= now (wd s2).
Proof.
  intros Hnew Hrun Hs Hchg Hsel'.
  assert (wf s) as Hwf by (apply reached_wf; unfold reached; eauto 10).
  pose proof (run_config _ _ _ Hrun) as (_ & _ & Hint & _). simpl in Hint.
  pose proof (step_config _ _ _ Hs) as (_ & _ & Hint' & _).
  destruct (step_cases _ _ _ Hwf Hs) as [Hq | (c0 & b & close & r & Hfl)].
  { apply quiet_calls in Hq as (Hc & _). congruence. }
  destruct Hfl as [_ _ _ _ _ _ Hfinal Hloop].
  assert (armed_for (now (wd s') + batchFlushInterval c) (t (gr s'))) as Harm.
  { destruct close.
    - destruct (Hfinal eq_refl) as (_ & _ & _ & _ & Hce & _).
      apply at_select_true in Hsel' as [_ Hn]. congruence.
    - destruct (Hloop eq_refl) as (_ & _ & _ & Harm). by rewrite <- Hint. }
  split; [exact Harm|].
  intros acts' s2 s3 Hrun' Htimer.
  assert (silent_until (now (wd s')) (now (wd s') + batchFlushInterval c) s') as Hsil.
  { pose proof Harm as Hrw. unfold armed_for in Hrw.
    unfold silent_until. rewrite Hrw. simpl.
    split; [lia|]. split; [discriminate|].
    intros d Hd. inversion Hd; subst. lia. }
  pose proof (step_wf _ _ _ Hwf Hs) as Hwf'.
  apply (run_silent _ _ acts' s' s2 Hwf') in Hsil;
    [| congruence | exact Hrun'].
  destruct Hsil as (_ & Hp & Hd).
  cbn [step startSender] in Htimer.
  apply sender_timer_inv in Htimer as (_ & tm & Hrecv & _).
  apply timer_recv_enabled in Hrecv as [Hpe | (dl & Hdl & Hle)].
  - exact (Hp Hpe).
  - specialize (Hd _ Hdl). lia.
Qed.

(** ** The size trigger *)

Lemma int_of_uint_small (u : Z) :
  0 <= u < 2 ^ 63 -> GoInt.int_of_uint u = u.
Proof.
  intros Hu. unfold GoInt.int_of_uint, GoInt.bits.
  change (64 - 1) with 63.
  rewrite Z.mod_small; lia.
Qed.

(** Below a batch maximum that [int] can hold, submitting and receiving
    calls the transport not once. *)
Lemma step_below_batch_max (s s' : System) (a : Action) :
  0 <= batchMaxSize (cl s) < 2 ^ 63 ->
  submit_or_receive a = true ->
  calls (wd s) = [] ->
  at_select s = true ->
  Chan.closed (envelopes (cl s)) = false ->
  Z.of_nat (held s + length (submitted (cl s) a)) < batchMaxSize (cl s) ->
  step s a = Next s' ->
  calls (wd s') = [] /\ at_select s' = true /\
  Chan.closed (envelopes (cl s')) = false /\
  held s' = (held s + length (submitted (cl s) a))%nat.
Proof.
  intros Hmax Ha Hcalls Hsel Hopen Hlt Hs.
  destruct a; try discriminate.
  1-3: match type of Hs with step _ ?a = _ =>
         destruct (step_emitter s a ltac:(simpl; eauto)) as (oe & Hsub & Hstep) end;
       rewrite Hstep in Hs; rewrite Hsub in *; clear Hsub Hstep;
       unfold lift in Hs;
       destruct (emit_envelope (cl s) oe) as [c1| |] eqn:E; try discriminate;
       apply emit_envelope_done in E as (e & -> & _ & _ & ->);
       inversion Hs; subst s'; clear Hs; unfold held; simpl;
       rewrite length_app; simpl; repeat split; auto; lia.
  - cbn [step startSender] in Hs.
    apply sender_recv_inv in Hs as [_ [(Hbuf & Hcl & _)
      | (env & rest & Hbuf & [(Hge & _) | (Hlt' & ->)])]].
    + congruence.
    + exfalso. rewrite (int_of_uint_small _ Hmax) in Hge.
      unfold held in Hlt. rewrite Hbuf in Hlt. unfold GoInt.len in Hge.
      rewrite length_app in Hge. simpl in *. lia.
    + apply at_select_true in Hsel as [_ Hnone].
      unfold held. simpl. rewrite Hbuf, length_app. simpl.
      repeat split; auto; [|lia].
      apply at_select_true. simpl. auto.
  - inversion Hs; subst s'. unfold held. simpl. repeat split; auto; lia.
Qed.

Lemma run_below_batch_max (acts : list Action) (s s' : System) :
  0 <= batchMaxSize (cl s) < 2 ^ 63 ->
  forallb submit_or_receive acts = true ->
  calls (wd s) = [] ->
  at_select s = true ->
  Chan.closed (envelopes (cl s)) = false ->
  Z.of_nat (held s + length (accepted (cl s) acts)) < batchMaxSize (cl s) ->
  run s acts = Next s' ->
  calls (wd s') = [].
Proof.
  revert s. induction acts as [|a acts IH]; intros s Hmax Hall Hcalls Hsel Hopen Hlt; simpl.
  - intros H; inversion H; subst; assumption.
  - destruct (step s a) as [s1| | |] eqn:E; try discriminate.
    simpl in Hall. apply andb_prop in Hall as [Ha Hall].
    unfold accepted in Hlt. simpl in Hlt. rewrite length_app in Hlt.
    destruct (step_below_batch_max _ _ _ Hmax Ha Hcalls Hsel Hopen ltac:(lia) E)
      as (Hc1 & Hsel1 & Hopen1 & Hheld).
    pose proof (step_config _ _ _ E) as (Htags & Hmax1 & _).
    apply IH; auto.
    + by rewrite Hmax1.
    + rewrite Hmax1, Hheld, (accepted_tags _ _ _ Htags). unfold accepted. lia.
Qed.

Lemma below_batch_max_no_send
  (dial : string -> option Err) (opts : list IngressOption) (c : IngressClient)
  (start : Z) (net : nat -> Reply) (acts : list Action) (s : System) :
  NewIngressClient dial opts = inr c ->
  0 <= batchMaxSize c < 2 ^ 63 ->
  forallb submit_or_receive acts = true ->
  Z.of_nat (length (accepted c acts)) < batchMaxSize c ->
  run (boot start net c) acts = Next s ->
  calls (wd s) = [].
Proof.
  intros Hnew Hmax Hall Hlt Hrun.
  apply new_client_fresh in Hnew as (He & Hce & _).
  apply (run_below_batch_max acts (boot start net c)); auto.
  - apply at_select_true. simpl. auto.
  - simpl. by rewrite He.
  - unfold held. simpl. rewrite He. simpl. exact Hlt.
Qed.

(** *** C2 *)

(** C2 does not hold of the code for a batch maximum of 2^63 or more:
    [int(c.batchMaxSize)] is then negative, the test
    [len(batch) >= int(c.batchMaxSize)] passes on the first record, and
    one record, fewer than the maximum, received with no timer firing,
    is sent at once in a batch of its own. *)
Theorem huge_batch_max_sends_first_record :
  GoInt.uint_range (batchMaxSize client_huge) /\
  GoInt.int_of_uint (batchMaxSize client_huge) < 0 /\
  NewIngressClient dial_ok [WithBatchMaxSize (2 ^ 63)] = inr client_huge /\
  run (boot 0 always_ok client_huge) [line 1; SenderRecv]
  = Next (after (boot 0 always_ok client_huge) [line 1; SenderRecv]) /\
  Z.of_nat (length (accepted client_huge [line 1; SenderRecv]))
  < batchMaxSize client_huge /\
  sent_batches (calls (wd (after (boot 0 always_ok client_huge) [line 1; SenderRecv])))
  = [accepted client_huge [line 1; SenderRecv]].
Proof.
  split; [vm_compute; split; [discriminate|reflexivity]|].
  split; [vm_compute; reflexivity|].
  split; [vm_compute; reflexivity|].
  split; [vm_compute; reflexivity|].
  split; vm_compute; reflexivity.
Qed.

(** *** C6, the claim as stated *)

(** C6 fails as stated: with nothing pending, on a transport whose
    [Send] fails, the shutdown makes its final flush, [CloseSend]
    returns the error of the send, and the stream close has not been
    called. *)
Lemma shutdown_after_failed_send_closes_no_stream :
  run (boot 0 (fails_at 1 "send failed" 0) client3)
    [CallCloseSend; SenderRecv; ReturnCloseSend]
  = Next (after (boot 0 (fails_at 1 "send failed" 0) client3)
            [CallCloseSend; SenderRecv; ReturnCloseSend]) /\
  sent_batches (calls (wd (after (boot 0 (fails_at 1 "send failed" 0) client3)
                             [CallCloseSend; SenderRecv; ReturnCloseSend])))
  = [[]] /\
  closeResults (wd (after (boot 0 (fails_at 1 "send failed" 0) client3)
                      [CallCloseSend; SenderRecv; ReturnCloseSend]))
  = [Some "send failed"%string] /\
  count_calls is_StreamCloseSend
    (calls (wd (after (boot 0 (fails_at 1 "send failed" 0) client3)
                  [CallCloseSend; SenderRecv; ReturnCloseSend])))
  <> 1%nat.
Proof.
  split; [vm_compute; reflexivity|].
  split; [vm_compute; reflexivity|].
  split; [vm_compute; reflexivity|].
  vm_compute. discriminate.
Qed.

(** ** The properties at work on the scenarios *)

(** C1 on the shutdown scenario: batch maximum 3 and five records give a
    batch of three and a batch of two, in submission order. *)
Lemma sent_batches_preserve_order_witness :
  NewIngressClient dial_ok opts3 = inr client3 /\
  failure_free always_ok /\
  run (sys3 always_ok) shutdown_run = Next (after (sys3 always_ok) shutdown_run) /\
  concat (sent_batches (calls (wd (after (sys3 always_ok) shutdown_run))))
  = accepted client3 shutdown_run.
Proof.
  assert (NewIngressClient dial_ok opts3 = inr client3) as Hnew by reflexivity.
  assert (failure_free always_ok) as Hff by (intros k; reflexivity).
  assert (run (sys3 always_ok) shutdown_run = Next (after (sys3 always_ok) shutdown_run))
    as Hrun by (vm_compute; reflexivity).
  split; [exact Hnew|]. split; [exact Hff|]. split; [exact Hrun|].
  apply (proj2 (sent_batches_preserve_order dial_ok opts3 client3 0 always_ok
                  shutdown_run _ Hnew Hff Hrun)).
  vm_compute. reflexivity.
Defined.

(** C3 on a size-triggered flush made two seconds after the start, the
    timer having fired unreceived one second before. *)
Lemma flush_restarts_timer_for_full_interval_witness :
  step (after (sys3 always_ok) two_received) SenderRecv
  = Next (after (sys3 always_ok) (two_received ++ [SenderRecv])) /\
  Timer.pending (Timer.at_time 2000000000 (t (gr (after (sys3 always_ok) two_received))))
  = true /\
  armed_for 3000000000 (t (gr (after (sys3 always_ok) (two_received ++ [SenderRecv])))) /\
  forall acts' s2 s3,
    run (after (sys3 always_ok) (two_received ++ [SenderRecv])) acts' = Next s2 ->
    step s2 SenderTimer = Next s3 ->
    3000000000 <= now (wd s2).
Proof.
  assert (step (after (sys3 always_ok) two_received) SenderRecv
          = Next (after (sys3 always_ok) (two_received ++ [SenderRecv])))
    as Hstep by (vm_compute; reflexivity).
  split; [exact Hstep|]. split; [vm_compute; reflexivity|].
  assert (now (wd (after (sys3 always_ok) (two_received ++ [SenderRecv])))
          + batchFlushInterval client3 = 3000000000) as Hnow
    by (vm_compute; reflexivity).
  rewrite <- Hnow.
  apply (flush_restarts_timer_for_full_interval dial_ok opts3 client3 0 always_ok
           two_received (after (sys3 always_ok) two_received)
           (after (sys3 always_ok) (two_received ++ [SenderRecv])) SenderRecv).
  - reflexivity.
  - vm_compute. reflexivity.
  - exact Hstep.
  - vm_compute. discriminate.
  - vm_compute. reflexivity.
Defined.

(** C4 on a transport whose first [Send] breaks: the batch of three is
    dropped with the stream, and the timer-triggered flush of the fourth
    record opens a new stream, once, and sends on it. *)
Lemma send_failure_drops_stream_and_batch_witness :
  last (calls (wd (after (sys3 broken_send) (two_received ++ [SenderRecv]))))
  = Some (Send 0 (accepted client3 [line 1; line 2; line 3]) (Some "broken pipe"%string)) /\
  sender (cl (after (sys3 broken_send) (two_received ++ [SenderRecv]))) = None /\
  batch (gr (after (sys3 broken_send) (two_received ++ [SenderRecv]))) = [] /\
  exists e rest,
    calls (wd (after (sys3 broken_send)
                 (two_received ++ [SenderRecv] ++ fourth_received ++ [SenderTimer])))
    = calls (wd (after (sys3 broken_send)
                   (two_received ++ [SenderRecv] ++ fourth_received)))
      ++ BatchSender e :: rest /\
    count_calls is_BatchSender rest = 0%nat.
Proof.
  pose proof (send_failure_drops_stream_and_batch dial_ok opts3 client3 0 broken_send
                two_received fourth_received
                (after (sys3 broken_send) two_received)
                (after (sys3 broken_send) (two_received ++ [SenderRecv]))
                (after (sys3 broken_send) (two_received ++ [SenderRecv] ++ fourth_received))
                (after (sys3 broken_send)
                   (two_received ++ [SenderRecv] ++ fourth_received ++ [SenderTimer]))
                SenderRecv SenderTimer
                0%nat (accepted client3 [line 1; line 2; line 3]) "broken pipe"%string) as H.
  assert (last (calls (wd (after (sys3 broken_send) (two_received ++ [SenderRecv]))))
          = Some (Send 0 (accepted client3 [line 1; line 2; line 3])
                    (Some "broken pipe"%string))) as Hlast
    by (vm_compute; reflexivity).
  destruct H as (Hnone & Hbatch & _ & _ & e & rest & Hcalls & Hcount & _).
  - reflexivity.
  - vm_compute. reflexivity.
  - vm_compute. reflexivity.
  - vm_compute. discriminate.
  - exact Hlast.
  - vm_compute. reflexivity.
  - vm_compute. reflexivity.
  - vm_compute. reflexivity.
  - vm_compute. discriminate.
  - split; [exact Hlast|]. split; [exact Hnone|].
    split; [apply Hbatch; vm_compute; reflexivity|].
    exists e, rest. split; assumption.
Defined.


(** C6, amended, on the shutdown scenario: the two pending records are
    sent once, then the stream is closed once. *)
Lemma final_flush_sends_once_then_closes_witness :
  exists est h r,
    drop 2 (calls (wd (after (sys3 always_ok) shutdown_run)))
    = est ++ [Send h (batch (gr (after (sys3 always_ok) closing))) None;
              StreamCloseSend h r] /\
    length (batch (gr (after (sys3 always_ok) closing))) = 2%nat /\
    closeResults (wd (after (sys3 always_ok) shutdown_run)) = [r].
Proof.
  destruct (final_flush_sends_once_then_closes
              (after (sys3 always_ok) closing)
              (after (sys3 always_ok) (closing ++ [SenderRecv]))
              (after (sys3 always_ok) (closing ++ [SenderRecv]))
              (after (sys3 always_ok) shutdown_run)
              []
              (drop 2 (calls (wd (after (sys3 always_ok) shutdown_run)))))
    as (_ & est & h & r & _ & Hnew & _ & _ & Hres).
  - vm_compute. reflexivity.
  - vm_compute. reflexivity.
  - vm_compute. reflexivity.
  - reflexivity.
  - vm_compute. reflexivity.
  - vm_compute. reflexivity.
  - vm_compute. repeat constructor.
  - exists est, h, r. split; [exact Hnew|]. split; [vm_compute; reflexivity|].
    exact Hres.
Defined.

(** C7 on the step whose [Send] breaks: the error is printed on the
    logger of the client and the goroutine is back at its [select]. *)
Lemma flush_errors_logged_and_swallowed_witness :
  step (after (sys3 broken_send) two_received) SenderRecv
  = Next (after (sys3 broken_send) (two_received ++ [SenderRecv])) /\
  printed (wd (after (sys3 broken_send) (two_received ++ [SenderRecv])))
  = [log_line (UserLogger "test") "broken pipe"] /\
  returned (gr (after (sys3 broken_send) (two_received ++ [SenderRecv]))) = false.
Proof.
  assert (step (after (sys3 broken_send) two_received) SenderRecv
          = Next (after (sys3 broken_send) (two_received ++ [SenderRecv])))
    as Hstep by (vm_compute; reflexivity).
  destruct (flush_errors_logged_and_swallowed dial_ok opts3 client3 0 broken_send
              two_received (after (sys3 broken_send) two_received) SenderRecv)
    as (_ & _ & H).
  - reflexivity.
  - vm_compute. discriminate.
  - vm_compute. reflexivity.
  - left. reflexivity.
  - destruct (H _ Hstep) as (_ & Hret & _).
    split; [exact Hstep|]. split; [vm_compute; reflexivity|]. exact Hret.
Defined.

(** C8, amended, on a queue that holds five records. *)
Lemma queue_capacity_fixed_and_submit_blocks_witness :
  Chan.cap (envelopes (cl (after (sys3 always_ok) five_lines))) = 100%nat /\
  (length (Chan.buf (envelopes (cl (after (sys3 always_ok) five_lines)))) <= 100)%nat /\
  exists s2,
    step (after (sys3 always_ok) five_lines) (line 6) = Next s2 /\
    Chan.buf (envelopes (cl s2))
    = Chan.buf (envelopes (cl (after (sys3 always_ok) five_lines)))
      ++ accepted client3 [line 6].
Proof.
  destruct (queue_capacity_fixed_and_submit_blocks dial_ok opts3 client3 0 always_ok
              five_lines (after (sys3 always_ok) five_lines) (line 6)
              (default (Build_Envelope 0 "" "" (Envelope_Gauge ∅) ∅)
                 (head (accepted client3 [line 6]))))
    as (Hcap & Hlen & _ & Hroom).
  - reflexivity.
  - vm_compute. reflexivity.
  - vm_compute. reflexivity.
  - vm_compute. reflexivity.
  - split; [exact Hcap|]. split; [exact Hlen|].
    destruct Hroom as (s2 & Hs2 & Hbuf); [vm_compute; lia|].
    exists s2. split; [exact Hs2|]. rewrite Hbuf. f_equal.
Defined.

(** C9 on a counter emitted with the tag "deployment" given per call
    over the static one, and no delta. *)
Lemma emitted_record_tags_and_delta_witness :
  tags client3 !! "deployment" = Some "cf"%string /\
  exists e,
    Chan.buf (envelopes (cl (after (sys3 always_ok) [count_requests]))) = [e] /\
    Tags e !! "deployment" = Some "dev"%string /\
    Message e = Envelope_Counter "requests" 1.
Proof.
  split; [vm_compute; reflexivity|].
  destruct (emitted_record_tags_and_delta (sys3 always_ok)
              (after (sys3 always_ok) [count_requests]) count_requests
              [WithEnvelopeTag "deployment" "dev"])
    as (e & Hbuf & _ & Hover & _ & Hdelta).
  - reflexivity.
  - vm_compute. reflexivity.
  - exists e. split; [exact Hbuf|]. split.
    + apply Hover. vm_compute. reflexivity.
    + apply (Hdelta 7 "requests"%string); reflexivity.
Defined.

(** C10 on a client closed before anything was submitted. *)
Lemma calls_after_CloseSend_panic_witness :
  step (after (sys3 always_ok) [CallCloseSend; SenderRecv]) (line 9) = Panic /\
  step (after (sys3 always_ok) [CallCloseSend; SenderRecv]) CallCloseSend = Panic.
Proof.
  assert (step (sys3 always_ok) CallCloseSend
          = Next (after (sys3 always_ok) [CallCloseSend])) as Hclose
    by (vm_compute; reflexivity).
  assert (run (after (sys3 always_ok) [CallCloseSend]) [SenderRecv]
          = Next (after (sys3 always_ok) [CallCloseSend; SenderRecv])) as Hrun
    by (vm_compute; reflexivity).
  split.
  - apply (calls_after_CloseSend_panic _ _ _ _ (line 9) Hclose Hrun).
    left. simpl. eauto.
  - apply (calls_after_CloseSend_panic _ _ _ _ CallCloseSend Hclose Hrun).
    right. reflexivity.
Defined.

(* ===================================================================== *)
(** * Further properties *)
(* ===================================================================== *)

(** ** Configuration *)

Lemma last_given_snoc {A B : Type} (f : A -> option B) (l : list A) (x : A) :
  last_given f (l ++ [x]) =
  match f x with
  | Some v => Some v
  | None => last_given f l
  end.
Proof.
  unfold last_given. rewrite omap_app. simpl.
  destruct (f x); [apply last_snoc|]. by rewrite (right_id_L [] (++)).
Qed.

Lemma configure_snoc (opts : list IngressOption) (o : IngressOption) (c : IngressClient) :
  configure (opts ++ [o]) c = run_ingress_option o (configure opts c).
Proof. unfold configure. by rewrite fold_left_app. Qed.

(** X1. Each setting of a configured client is the value given by the
    last option that sets it, and the value it had when no option does;
    a tag has the value of the last [WithTag] of its name. *)
Theorem configure_last_option_wins (opts : list IngressOption) (c : IngressClient) :
  batchMaxSize (configure opts c)
  = default (batchMaxSize c) (last_given sets_batchMaxSize opts) /\
  batchFlushInterval (configure opts c)
  = default (batchFlushInterval c) (last_given sets_batchFlushInterval opts) /\
  addr (configure opts c) = default (addr c) (last_given sets_addr opts) /\
  logger (configure opts c) = default (logger c) (last_given sets_logger opts) /\
  forall k, tags (configure opts c) !! k
            = match last_given (sets_tag k) opts with
              | Some v => Some v
              | None => tags c !! k
              end.
Proof.
  induction opts as [|o opts IH] using rev_ind; [by repeat split|].
  destruct IH as (Hm & Hi & Ha & Hl & Ht).
  rewrite configure_snoc, !last_given_snoc.
  split; [|split; [|split; [|split]]]; try intros k; try rewrite last_given_snoc;
    destruct o; simpl; auto.
  case_decide as Hk.
  - subst. by rewrite lookup_insert_eq.
  - rewrite lookup_insert_ne by done. apply Ht.
Qed.

(** X2. [NewIngressClient] dials the address of the last [WithAddr], the
    default one when there is none. It fails exactly when the dial does,
    with the error of the dial and no client. When it succeeds the
    client is the default one configured by the options: it has no
    stream, its queue is open, empty and of capacity 100, and nothing is
    offered on [closeErrors]. *)
Theorem NewIngressClient_dials_configured_address
  (dial : string -> option Err) (opts : list IngressOption) :
  let a := default "localhost:3458"%string (last_given sets_addr opts) in
  (forall err, NewIngressClient dial opts = inl err <-> dial a = Some err) /\
  (forall c, NewIngressClient dial opts = inr c <->
     dial a = None /\ c = configure opts default_client) /\
  sender (configure opts default_client) = None /\
  envelopes (configure opts default_client) = Chan.make 100 /\
  closeErrors (configure opts default_client) = None.
Proof.
  intros a.
  destruct (configure_last_option_wins opts default_client) as (_ & _ & Ha & _).
  simpl in Ha. fold a in Ha.
  destruct (configure_fixed opts default_client) as (He & Hc & Hs).
  unfold NewIngressClient. rewrite Ha.
  split; [|split; [|auto]].
  - intros err. destruct (dial a); split; intros H; inversion H; auto.
  - intros c. destruct (dial a); split.
    + discriminate.
    + intros [H _]; discriminate.
    + intros H; inversion H; auto.
    + intros [_ ->]. reflexivity.
Qed.

(** ** The envelopes the emitters build *)

Lemma run_option_kind (o : EmitOption) (e e' : Envelope) :
  run_option o e = Some e' -> kind_of (Message e') = kind_of (Message e).
Proof.
  destruct o; simpl; try (intros H; inversion H; reflexivity);
    destruct (Message e); intros H; inversion H; reflexivity.
Qed.

Lemma run_option_fits (o : EmitOption) (e : Envelope) :
  is_Some (run_option o e) <-> fits (kind_of (Message e)) o = true.
Proof.
  destruct o; simpl; try (split; eauto; fail);
    destruct (Message e); simpl; split; eauto; try discriminate;
    intros [? ?]; discriminate.
Qed.

Lemma run_options_fit (opts : list EmitOption) (e : Envelope) :
  is_Some (run_options opts e) <-> forallb (fits (kind_of (Message e))) opts = true.
Proof.
  revert e. induction opts as [|o opts IH]; intros e; simpl.
  - split; eauto.
  - rewrite andb_true_iff, <- run_option_fits.
    destruct (run_option o e) as [e1|] eqn:E.
    + rewrite IH, (run_option_kind _ _ _ E). split; eauto. tauto.
    + split; [intros [? ?]; discriminate|]. intros [[? ?] _]; discriminate.
Qed.

Lemma build_fits (c : IngressClient) (ts : Z) (m : isEnvelope_Message)
  (opts : list EmitOption) :
  is_Some (build c ts m opts) <-> forallb (fits (kind_of m)) opts = true.
Proof. unfold build. by rewrite run_options_fit. Qed.

Lemma emit_envelope_panics (c : IngressClient) (oe : option Envelope) :
  emit_envelope c oe = Chan.Panics <->
  oe = None \/ Chan.closed (envelopes c) = true.
Proof.
  destruct oe as [e|]; simpl.
  - unfold submit, Chan.send.
    destruct (Chan.closed (envelopes c)); [split; auto|].
    destruct (_ <? _)%nat; split; try discriminate; intros [?|?]; discriminate.
  - split; auto.
Qed.

(** X3. An emitter panics exactly when the queue is closed or one of
    its options reaches for a message of another kind ([WithStdout] off
    a log, [WithGaugeValue] off a gauge, [WithDelta] off a counter); with
    options of its own kind and an open queue it enqueues or blocks. *)
Theorem emitters_panic_on_closed_queue_or_foreign_option
  (c : IngressClient) (ts : Z) (message name : string) (opts : list EmitOption) :
  (EmitLog c ts message opts = Chan.Panics <->
     Chan.closed (envelopes c) = true \/ forallb (fits KLog) opts = false) /\
  (EmitGauge c ts opts = Chan.Panics <->
     Chan.closed (envelopes c) = true \/ forallb (fits KGauge) opts = false) /\
  (EmitCounter c ts name opts = Chan.Panics <->
     Chan.closed (envelopes c) = true \/ forallb (fits KCounter) opts = false).
Proof.
  assert (forall m, emit_envelope c (build c ts m opts) = Chan.Panics <->
            Chan.closed (envelopes c) = true \/ forallb (fits (kind_of m)) opts = false)
    as H.
  { intros m. rewrite emit_envelope_panics.
    pose proof (build_fits c ts m opts) as Hb.
    destruct (build c ts m opts) as [e|] eqn:E.
    - assert (forallb (fits (kind_of m)) opts = true) as -> by (apply Hb; eauto).
      split; intros [?|?]; try discriminate; auto.
    - destruct (forallb (fits (kind_of m)) opts); [|tauto].
      destruct (proj2 Hb eq_refl). discriminate. }
  split; [apply (H (Envelope_Log message Log_ERR))|].
  split; [apply (H (Envelope_Gauge ∅))|apply (H (Envelope_Counter name 1))].
Qed.

(** Folding the options over the fields they write. *)
Lemma run_options_snoc (opts : list EmitOption) (o : EmitOption) (e : Envelope) :
  run_options (opts ++ [o]) e = run_options opts e ≫= run_option o.
Proof.
  revert e. induction opts as [|o' opts IH]; intros e; simpl.
  - by destruct (run_option o e).
  - destruct (run_option o' e); [apply IH|reflexivity].
Qed.

Lemma existsb_snoc {A : Type} (f : A -> bool) (l : list A) (x : A) :
  existsb f (l ++ [x]) = existsb f l || f x.
Proof. rewrite existsb_app. simpl. by rewrite orb_false_r. Qed.

(** X4. A log line reaches the queue with the time stamp and the
    payload of the call; its type is stdout when [WithStdout] is among
    the options and stderr otherwise. *)
Theorem log_envelope_type (c : IngressClient) (ts : Z) (message : string)
  (opts : list EmitOption) (e : Envelope) :
  log_envelope c ts message opts = Some e ->
  Timestamp e = ts /\
  Message e = Envelope_Log message
                (if existsb is_WithStdout opts then Log_OUT else Log_ERR).
Proof.
  unfold log_envelope, build. revert e.
  induction opts as [|o opts IH] using rev_ind; intros e.
  - simpl. intros H; inversion H; auto.
  - rewrite run_options_snoc, existsb_snoc.
    destruct (run_options opts _) as [e1|] eqn:E; [|discriminate]. simpl.
    destruct (IH _ eq_refl) as (Ht & Hm).
    destruct o; simpl; rewrite ?Hm; intros H; inversion H; subst; simpl;
      rewrite ?orb_false_r, ?orb_true_r; auto.
Qed.

(** X5. A counter reaches the queue under the name of the call with the
    delta of the last [WithDelta] among its options, 1 when there is
    none. *)
Theorem counter_envelope_delta (c : IngressClient) (ts : Z) (name : string)
  (opts : list EmitOption) (e : Envelope) :
  counter_envelope c ts name opts = Some e ->
  Timestamp e = ts /\
  Message e = Envelope_Counter name (default 1 (last_given gives_delta opts)).
Proof.
  unfold counter_envelope, build. revert e.
  induction opts as [|o opts IH] using rev_ind; intros e.
  - simpl. intros H; inversion H; auto.
  - rewrite run_options_snoc, last_given_snoc.
    destruct (run_options opts _) as [e1|] eqn:E; [|discriminate]. simpl.
    destruct (IH _ eq_refl) as (Ht & Hm).
    destruct o; simpl; rewrite ?Hm; intros H; inversion H; subst; simpl; auto.
Qed.

(** X6. A gauge reaches the queue with, under each name, the value and
    unit of the last [WithGaugeValue] of that name among its options,
    and with nothing under a name no option gives: with no such option
    the gauge is empty. *)
Theorem gauge_envelope_metrics (c : IngressClient) (ts : Z)
  (opts : list EmitOption) (e : Envelope) :
  gauge_envelope c ts opts = Some e ->
  Timestamp e = ts /\
  exists ms, Message e = Envelope_Gauge ms /\
    forall k, ms !! k = last_given (gives_metric k) opts.
Proof.
  unfold gauge_envelope, build. revert e.
  induction opts as [|o opts IH] using rev_ind; intros e.
  - simpl. intros H; inversion H; simpl. split; [reflexivity|].
    exists ∅. split; [reflexivity|]. intros k. apply lookup_empty.
  - rewrite run_options_snoc.
    destruct (run_options opts _) as [e1|] eqn:E; [|discriminate]. simpl.
    destruct (IH _ eq_refl) as (Ht & ms & Hm & Hms).
    destruct o; simpl; rewrite ?Hm; intros H; inversion H; subst; simpl;
      (split; [reflexivity|]);
      try (exists ms; split; [assumption|]; intros k;
           rewrite last_given_snoc; simpl; apply Hms).
    eexists. split; [reflexivity|]. intros k. rewrite last_given_snoc. simpl.
    case_decide as Hk.
    + subst. by rewrite lookup_insert_eq.
    + rewrite lookup_insert_ne by done. apply Hms.
Qed.

(** X7. The source id of a record is the application id of the last
    [WithAppInfo] or [WithGaugeAppInfo] among the options, its instance
    id the source instance of the last [WithAppInfo]; each is empty
    when no option gives it. No other option touches them. *)
Theorem envelope_source_identity (c : IngressClient) (ts : Z)
  (m : isEnvelope_Message) (opts : list EmitOption) (e : Envelope) :
  build c ts m opts = Some e ->
  SourceId e = default ""%string (last_given gives_source opts) /\
  InstanceId e = default ""%string (last_given gives_instance opts).
Proof.
  unfold build. revert e.
  induction opts as [|o opts IH] using rev_ind; intros e.
  - simpl. intros H; inversion H; auto.
  - rewrite run_options_snoc, !last_given_snoc.
    destruct (run_options opts _) as [e1|] eqn:E; [|discriminate]. simpl.
    destruct (IH _ eq_refl) as (Hs & Hi).
    destruct o; simpl; try destruct (Message e1);
      intros H; inversion H; subst; simpl; auto.
Qed.

(** X8. Options add tags and overwrite tags, and never remove one: a
    key present in the tags after a prefix of the options, a static tag
    for one, is present after all of them. *)
Theorem options_never_remove_tags (c : IngressClient) (ts : Z)
  (m : isEnvelope_Message) (pre post : list EmitOption) (e0 e : Envelope) :
  build c ts m pre = Some e0 ->
  build c ts m (pre ++ post) = Some e ->
  dom (tags c) ⊆ dom (Tags e0) /\ dom (Tags e0) ⊆ dom (Tags e).
Proof.
  intros H0 H.
  rewrite (build_tags _ _ _ _ _ H0), (build_tags _ _ _ _ _ H).
  rewrite !dom_union_L. split; [apply union_subseteq_r|].
  apply union_mono_r.
  unfold per_call_tags. rewrite fold_left_app.
  generalize (fold_left (fun acc o => option_tags o acc) pre ∅).
  clear H0 H.
  induction post as [|o post IH]; intros a; simpl; [done|].
  etransitivity; [|apply IH].
  destruct o; simpl;
    first [ reflexivity
          | apply dom_insert_subseteq
          | rewrite dom_union_L; apply union_subseteq_r ].
Qed.

(** X4 to X8 on records of the three kinds. *)
Lemma log_envelope_type_witness :
  exists e,
    log_envelope client3 5 "out" [WithEnvelopeTag "a" "b"; WithStdout] = Some e /\
    Timestamp e = 5 /\ Message e = Envelope_Log "out" Log_OUT.
Proof.
  eexists. split; [vm_compute; reflexivity|].
  apply (log_envelope_type client3 5 "out" [WithEnvelopeTag "a" "b"; WithStdout]).
  vm_compute. reflexivity.
Defined.

Lemma counter_envelope_delta_witness :
  exists e,
    counter_envelope client3 5 "hits" [WithDelta 2; WithDelta 40] = Some e /\
    Timestamp e = 5 /\ Message e = Envelope_Counter "hits" 40.
Proof.
  eexists. split; [vm_compute; reflexivity|].
  apply (counter_envelope_delta client3 5 "hits" [WithDelta 2; WithDelta 40]).
  vm_compute. reflexivity.
Defined.

Lemma gauge_envelope_metrics_witness :
  exists e ms,
    gauge_envelope client3 5 [WithGaugeValue "cpu" 1 "percent";
                              WithGaugeValue "cpu" 3 "percent"] = Some e /\
    Message e = Envelope_Gauge ms /\
    ms !! "cpu" = Some {| Unit := "percent"; Value := 3 |} /\
    ms !! "mem" = None.
Proof.
  destruct (gauge_envelope_metrics client3 5
              [WithGaugeValue "cpu" 1 "percent"; WithGaugeValue "cpu" 3 "percent"]
              (default (Build_Envelope 0 "" "" (Envelope_Gauge ∅) ∅)
                 (gauge_envelope client3 5
                    [WithGaugeValue "cpu" 1 "percent"; WithGaugeValue "cpu" 3 "percent"])))
    as (_ & ms & Hm & Hms).
  - vm_compute. reflexivity.
  - eexists _, ms. split; [vm_compute; reflexivity|]. split; [exact Hm|].
    split; [apply (Hms "cpu"%string)|apply (Hms "mem"%string)].
Defined.

Lemma envelope_source_identity_witness :
  exists e,
    gauge_envelope client3 5 [WithGaugeAppInfo "app-1"; WithGaugeValue "cpu" 3 "percent"]
    = Some e /\
    SourceId e = "app-1"%string /\ InstanceId e = ""%string.
Proof.
  eexists. split; [vm_compute; reflexivity|].
  apply (envelope_source_identity client3 5 (Envelope_Gauge ∅)
           [WithGaugeAppInfo "app-1"; WithGaugeValue "cpu" 3 "percent"]).
  vm_compute. reflexivity.
Defined.

Lemma options_never_remove_tags_witness :
  exists e0 e,
    log_envelope client3 5 "x" [WithEnvelopeTags {["zone" := "z1"%string]}] = Some e0 /\
    log_envelope client3 5 "x" [WithEnvelopeTags {["zone" := "z1"%string]};
                                WithEnvelopeTags {["rack" := "r9"%string]}] = Some e /\
    dom (tags client3) ⊆ dom (Tags e0) /\ dom (Tags e0) ⊆ dom (Tags e).
Proof.
  eexists _, _. split; [vm_compute; reflexivity|]. split; [vm_compute; reflexivity|].
  apply (options_never_remove_tags client3 5 (Envelope_Log "x" Log_ERR)
           [WithEnvelopeTags {["zone" := "z1"%string]}]
           [WithEnvelopeTags {["rack" := "r9"%string]}]);
    vm_compute; reflexivity.
Defined.

(** ** More of what every reached state satisfies *)

Lemma boot_wf_more (start : Z) (net : nat -> Reply) (c : IngressClient) :
  envelopes c = Chan.make 100 ->
  wf_more (boot start net c).
Proof.
  intros He. split; simpl.
  - auto.
  - intros d H. inversion H. lia.
  - rewrite He. simpl. auto.
Qed.

Lemma step_wf_more (s s' : System) (a : Action) :
  wf s -> wf_more s -> step s a = Next s' -> wf_more s'.
Proof.
  intros Hwf [Hb Hd Hr] Hs.
  pose proof (step_config _ _ _ Hs) as (_ & Hmax & Hint & _ & _ & Hnow).
  destruct a; cbn [step startSender] in Hs.
  1-3: unfold lift, EmitLog, EmitGauge, EmitCounter in Hs;
       match type of Hs with context [emit_envelope ?c ?oe] =>
         destruct (emit_envelope c oe) as [c1| |] eqn:E; try discriminate;
         apply emit_envelope_done in E as (e & _ & Hopen & _ & ->) end;
       inversion Hs; subst s'; clear Hs; simpl in *;
       rewrite Hopen in Hr; split; simpl; auto.
  - (* CallCloseSend *)
    unfold CloseSend_close, Chan.close in Hs.
    destruct (Chan.closed (envelopes (cl s))) eqn:Hcl; [discriminate|].
    inversion Hs; subst s'; clear Hs. split; simpl; auto.
    destruct (returned (gr s)).
    + destruct Hr as (_ & _ & _ & ?). discriminate.
    + destruct Hr as (-> & ->). auto.
  - (* ReturnCloseSend *)
    destruct (closers (wd s)) as [|n] eqn:Hn; [discriminate|].
    unfold CloseSend_recv in Hs.
    destruct (closeErrors (cl s)) as [r|] eqn:Hce; [|discriminate].
    inversion Hs; subst s'; clear Hs.
    destruct (wf_drained _ Hwf) as [Hcl _].
    { apply at_select_false. right. congruence. }
    split; simpl in *; auto.
    + unfold at_select; simpl. discriminate.
    + destruct (returned (gr s)).
      * destruct Hr as (? & _). discriminate.
      * destruct Hr as (-> & Hc). rewrite Hcl in Hc. simpl.
        repeat split; auto; lia.
  - (* SenderRecv *)
    apply sender_recv_inv in Hs as [Hsel [(Hbuf & Hcl & c1 & w1 & r & Hf & ->)
      | (env & rest & Hbuf & [(Hge & c1 & w1 & r & Hf & tm & Hrt & ->) | (Hlt & ->)])]];
      apply at_select_true in Hsel as Hsel'; destruct Hsel' as [Hret Hnone];
      rewrite Hret in Hr; simpl in *.
    + pose proof (flush_frame _ _ _ _ _ _ _ Hf)
        as (He & _ & _ & _ & _ & _ & _ & Hcs & Hrs & _).
      split; simpl.
      * unfold at_select; simpl. rewrite andb_false_r. discriminate.
      * intros d Hdl. specialize (Hd d Hdl). lia.
      * rewrite Hret, He, Hcs, Hrs. exact Hr.
    + pose proof (flush_frame _ _ _ _ _ _ _ Hf)
        as (He & _ & _ & Hi & _ & _ & _ & Hcs & Hrs & _).
      rewrite (restart_timer_armed _ _ _ (wf_timer _ Hwf Hsel)) in Hrt.
      inversion Hrt; subst tm.
      split; simpl; auto.
      * intros d Hdl. inversion Hdl. lia.
      * rewrite He, Hcs, Hrs. simpl. exact Hr.
    + split; simpl; auto.
  - (* SenderTimer *)
    apply sender_timer_inv in Hs as [Hsel (tm & Hrecv & [(Hne & c1 & w1 & r & Hf & ->) | (Hb' & ->)])];
      apply at_select_true in Hsel as Hsel'; destruct Hsel' as [Hret Hnone];
      rewrite Hret in Hr; simpl in *.
    + pose proof (flush_frame _ _ _ _ _ _ _ Hf)
        as (He & _ & _ & Hi & _ & _ & _ & Hcs & Hrs & _).
      rewrite (timer_recv_reset _ _ _ _ _ (wf_timer _ Hwf Hsel) Hrecv).
      split; simpl; auto.
      * intros d Hdl. inversion Hdl. lia.
      * rewrite He, Hcs, Hrs. exact Hr.
    + rewrite (timer_recv_reset _ _ _ _ _ (wf_timer _ Hwf Hsel) Hrecv).
      split; simpl; auto.
      intros d Hdl. inversion Hdl. lia.
  - (* Elapse *)
    inversion Hs; subst s'; clear Hs. simpl in *. split; simpl; auto.
    intros d Hdl. specialize (Hd d Hdl). lia.
Qed.

Lemma run_wf_more (acts : list Action) (s s' : System) :
  wf s -> wf_more s -> run s acts = Next s' -> wf_more s'.
Proof.
  revert s. induction acts as [|a acts IH]; intros s Hwf Hm; simpl.
  - intros H; inversion H; subst; assumption.
  - destruct (step s a) as [s1| | |] eqn:E; try discriminate.
    apply IH; [eapply step_wf|eapply step_wf_more]; eassumption.
Qed.

Lemma reached_wf_more (s : System) : reached s -> wf_more s.
Proof.
  intros (dial & opts & c & start & net & acts & Hnew & Hrun).
  apply new_client_fresh in Hnew as (He & Hc & _).
  eapply run_wf_more; [| |exact Hrun].
  - by apply boot_wf.
  - by apply boot_wf_more.
Qed.

(** ** The size of the batches *)

Lemma flush_calls_sent (c : IngressClient) (w : World) (b : list Envelope)
  (close : bool) (new : list Call) (h : option nat) (r : option Err) :
  flush_calls c w b close new h r ->
  sent_batches new = [b] \/ sent_batches new = [].
Proof.
  destruct 1 as [err Hs | est h0 err Ho | est h0 Ho Hc | est h0 r Ho Hc];
    [right; reflexivity| | |];
    left; apply opened_no_send in Ho as (Hn & _);
    rewrite sent_batches_app, Hn; reflexivity.
Qed.

Lemma flush_sent (c c' : IngressClient) (w w' : World) (b : list Envelope)
  (close : bool) (r : option Err) :
  flush c w b close = Some (c', w', r) ->
  exists new, calls w' = calls w ++ new /\
    (sent_batches new = [b] \/ sent_batches new = []).
Proof.
  intros Hf. apply flush_spec in Hf as (new & Hfc & Hc & _).
  exists new. split; [assumption|]. eapply flush_calls_sent; eassumption.
Qed.

(** What a step hands to [Send]: nothing, or one batch, which is the
    batch of the goroutine with the record just received, if any. *)
Lemma step_sends (s s' : System) (a : Action) :
  wf s ->
  step s a = Next s' ->
  exists new, calls (wd s') = calls (wd s) ++ new /\
    (sent_batches new = [] \/
     sent_batches new = [batch (gr s)] \/
     exists env, a = SenderRecv /\
       GoInt.int_of_uint (batchMaxSize (cl s)) <= GoInt.len (batch (gr s) ++ [env]) /\
       sent_batches new = [batch (gr s) ++ [env]]).
Proof.
  intros Hwf Hs.
  destruct a.
  1-5,8: destruct (step_cases _ _ _ Hwf Hs) as [Hq | (c0 & b & close & r & Hfl)];
       [ apply quiet_calls in Hq as (Hc & _); exists [];
         rewrite (right_id_L [] (++)); auto
       | destruct Hfl as [_ [?|?] _ _ _ _ _ _]; discriminate ].
  - cbn [step startSender] in Hs.
    apply sender_recv_inv in Hs as [Hsel [(Hbuf & Hcl & c1 & w1 & r & Hf & ->)
      | (env & rest & Hbuf & [(Hge & c1 & w1 & r & Hf & tm & Hrt & ->) | (Hlt & ->)])]].
    + apply flush_sent in Hf as (new & Hc & [H|H]); exists new; simpl; auto.
    + apply flush_sent in Hf as (new & Hc & [H|H]); exists new; simpl; eauto 8.
    + exists []. simpl. rewrite (right_id_L [] (++)). auto.
  - cbn [step startSender] in Hs.
    apply sender_timer_inv in Hs as [Hsel (tm & Hrecv & [(Hne & c1 & w1 & r & Hf & ->) | (Hb & ->)])].
    + apply flush_sent in Hf as (new & Hc & [H|H]); exists new; simpl; auto.
    + exists []. simpl. rewrite (right_id_L [] (++)). auto.
Qed.

Lemma run_batches_bounded (acts : list Action) (s s' : System) (bound : Z) :
  wf s -> wf_more s ->
  bound = Z.max 1 (GoInt.int_of_uint (batchMaxSize (cl s))) ->
  Forall (fun b => GoInt.len b <= bound) (sent_batches (calls (wd s))) ->
  run s acts = Next s' ->
  Forall (fun b => GoInt.len b <= bound) (sent_batches (calls (wd s'))).
Proof.
  revert s. induction acts as [|a acts IH]; intros s Hwf Hm Hb Hall; simpl.
  - intros H; inversion H; subst; assumption.
  - destruct (step s a) as [s1| | |] eqn:E; try discriminate.
    apply IH.
    + eapply step_wf; eassumption.
    + eapply step_wf_more; eassumption.
    + apply step_config in E as (_ & -> & _). exact Hb.
    + destruct (step_sends _ _ _ Hwf E) as (new & Hcalls & Hnew).
      assert (at_select s = true -> batch (gr s) = [] \/
                GoInt.len (batch (gr s)) < GoInt.int_of_uint (batchMaxSize (cl s)))
        as Hbatch by apply (wm_batch _ Hm).
      assert (at_select s = true \/ new = []) as Hsel.
      { destruct (step_cases _ _ _ Hwf E) as [Hq | (c0 & b & close & r & Hfl)].
        - right. apply quiet_calls in Hq as (Hc & _).
          rewrite Hc in Hcalls. apply (app_inv_head (calls (wd s))).
          by rewrite (right_id_L [] (++)).
        - left. by destruct Hfl. }
      rewrite Hcalls, sent_batches_app. apply Forall_app. split; [assumption|].
      destruct Hsel as [Hsel | ->]; [|constructor].
      specialize (Hbatch Hsel).
      destruct Hnew as [-> | [-> | (env & _ & Hge & ->)]]; repeat constructor.
      * destruct Hbatch as [-> | Hlt]; unfold GoInt.len in *; simpl; lia.
      * unfold GoInt.len in *. rewrite length_app in *. simpl in *.
        destruct Hbatch as [Hnil | Hlt]; [rewrite Hnil; simpl|]; lia.
Qed.

(** X9. No batch handed to [Send] is longer than the batch maximum, or
    than one record when the maximum is 0 or above what an [int] holds. *)
Theorem sent_batches_within_batch_max
  (dial : string -> option Err) (opts : list IngressOption) (c : IngressClient)
  (start : Z) (net : nat -> Reply) (acts : list Action) (s : System) :
  NewIngressClient dial opts = inr c ->
  run (boot start net c) acts = Next s ->
  Forall (fun b => GoInt.len b <= Z.max 1 (GoInt.int_of_uint (batchMaxSize c)))
    (sent_batches (calls (wd s))).
Proof.
  intros Hnew Hrun.
  pose proof (new_client_fresh _ _ _ Hnew) as (He & Hce & _).
  apply (run_batches_bounded acts (boot start net c) s _
           (boot_wf start net c Hce He) (boot_wf_more start net c He) eq_refl);
    [constructor | exact Hrun].
Qed.

Lemma sent_batches_within_batch_max_witness :
  Forall (fun b => GoInt.len b <= 3)
    (sent_batches (calls (wd (after (sys3 always_ok) shutdown_run)))).
Proof.
  apply (sent_batches_within_batch_max dial_ok opts3 client3 0 always_ok shutdown_run).
  - reflexivity.
  - vm_compute. reflexivity.
Defined.

(** X10. A flush triggered by the size of the batch takes exactly the
    batch maximum of records (one record when the maximum is 0 or above
    what an [int] holds): the batch of the goroutine and the record just
    received. Whatever the step hands to [Send] is that batch, and the
    goroutine goes on with an empty one. *)
Theorem size_triggered_flush_is_full
  (dial : string -> option Err) (opts : list IngressOption) (c : IngressClient)
  (start : Z) (net : nat -> Reply) (acts : list Action) (s s' : System) :
  NewIngressClient dial opts = inr c ->
  run (boot start net c) acts = Next s ->
  step s SenderRecv = Next s' ->
  calls (wd s') <> calls (wd s) ->
  at_select s' = true ->
  exists env new,
    Chan.buf (envelopes (cl s)) = env :: Chan.buf (envelopes (cl s')) /\
    GoInt.len (batch (gr s) ++ [env])
    = Z.max 1 (GoInt.int_of_uint (batchMaxSize c)) /\
    calls (wd s') = calls (wd s) ++ new /\
    Forall (fun b => b = batch (gr s) ++ [env]) (sent_batches new) /\
    batch (gr s') = [].
Proof.
  intros Hnew Hrun Hs Hchg Hsel'.
  assert (reached s) as Hre by (unfold reached; eauto 10).
  pose proof (reached_wf _ Hre) as Hwf.
  pose proof (reached_wf_more _ Hre) as Hm.
  pose proof (run_config _ _ _ Hrun) as (_ & Hmax & _). simpl in Hmax.
  cbn [step startSender] in Hs.
  apply sender_recv_inv in Hs as [Hsel [(Hbuf & Hcl & c1 & w1 & r & Hf & ->)
    | (env & rest & Hbuf & [(Hge & c1 & w1 & r & Hf & tm & Hrt & ->) | (Hlt & ->)])]].
  - unfold at_select in Hsel'. simpl in Hsel'. rewrite andb_false_r in Hsel'. discriminate.
  - pose proof (flush_frame _ _ _ _ _ _ _ Hf) as (He & _).
    apply flush_sent in Hf as (new & Hc & Hnew').
    exists env, new. simpl. rewrite He. simpl.
    split; [assumption|]. split.
    + rewrite <- Hmax.
      destruct (wm_batch _ Hm Hsel) as [Hnil | Hlt].
      * rewrite Hnil in *. unfold GoInt.len in *. simpl in *. lia.
      * unfold GoInt.len in *. rewrite length_app in *. simpl in *. lia.
    + split; [assumption|]. split; [|reflexivity].
      destruct Hnew' as [-> | ->]; repeat constructor.
  - simpl in Hchg. congruence.
Qed.

Lemma size_triggered_flush_is_full_witness :
  exists env new,
    GoInt.len (batch (gr (after (sys3 always_ok) two_received)) ++ [env]) = 3 /\
    calls (wd (after (sys3 always_ok) (two_received ++ [SenderRecv])))
    = calls (wd (after (sys3 always_ok) two_received)) ++ new /\
    Forall (fun b => b = batch (gr (after (sys3 always_ok) two_received)) ++ [env])
      (sent_batches new).
Proof.
  destruct (size_triggered_flush_is_full dial_ok opts3 client3 0 always_ok two_received
              (after (sys3 always_ok) two_received)
              (after (sys3 always_ok) (two_received ++ [SenderRecv])))
    as (env & new & _ & Hlen & Hcalls & Hall & _).
  - reflexivity.
  - vm_compute. reflexivity.
  - vm_compute. reflexivity.
  - vm_compute. discriminate.
  - vm_compute. reflexivity.
  - exists env, new. auto.
Defined.

(** ** The longest wait *)

Lemma timer_due_recv (now' : Z) (tm : Timer.t) :
  timer_ok tm ->
  (forall d, Timer.deadline tm = Some d -> d <= now') ->
  Timer.recv now' tm = Some (Timer.mk None false).
Proof.
  unfold timer_ok, Timer.recv, Timer.at_time.
  destruct tm as [[d|] [|]]; simpl; try tauto; intros _ Hd.
  specialize (Hd d eq_refl).
  destruct (Z.leb_spec d now'); [reflexivity|lia].
Qed.

(** X11. When the logger of the client is not nil, a record never waits
    in the batch for more than one flush interval of running time: from
    any state at the [select], once an interval has gone by (at once,
    when the interval is zero or negative) the timer case can be taken,
    and taking it leaves the batch empty, having flushed it if it held
    anything and called nothing if it did not. *)
Theorem timer_case_due_within_interval
  (dial : string -> option Err) (opts : list IngressOption) (c : IngressClient)
  (start : Z) (net : nat -> Reply) (acts : list Action) (s : System) (dt : N) :
  NewIngressClient dial opts = inr c ->
  logger c <> NilLogger ->
  run (boot start net c) acts = Next s ->
  at_select s = true ->
  batchFlushInterval c <= Z.of_N dt ->
  exists s1 s2,
    step s (Elapse dt) = Next s1 /\
    step s1 SenderTimer = Next s2 /\
    at_select s2 = true /\
    batch (gr s2) = [] /\
    (batch (gr s) = [] -> calls (wd s2) = calls (wd s)) /\
    (batch (gr s) <> [] ->
       exists new, new <> [] /\ calls (wd s2) = calls (wd s) ++ new /\
         (sent_batches new = [batch (gr s)] \/ sent_batches new = [])).
Proof.
  intros Hnew Hnil Hrun Hsel Hdt.
  assert (reached s) as Hre by (unfold reached; eauto 10).
  pose proof (reached_wf _ Hre) as Hwf.
  pose proof (reached_wf_more _ Hre) as Hm.
  pose proof (run_config _ _ _ Hrun) as (_ & _ & Hint & Hlog & _).
  simpl in Hint, Hlog.
  assert (logger (cl s) <> NilLogger) as Hnil' by congruence.
  exists {| cl := cl s; gr := gr s; wd := elapse dt (wd s) |}.
  assert (Timer.recv (now (wd s) + Z.of_N dt) (t (gr s)) = Some (Timer.mk None false))
    as Hrecv.
  { apply timer_due_recv; [exact (wf_timer _ Hwf Hsel)|].
    intros d Hd. pose proof (wm_due _ Hm d Hd). lia. }
  pose proof Hsel as Hsel0. apply at_select_true in Hsel0 as [Hret Hnone].
  assert (at_select {| cl := cl s; gr := gr s; wd := elapse dt (wd s) |} = true)
    as Hsel1 by (apply at_select_true; auto).
  cbn [step startSender]. unfold sender_timer. rewrite Hsel1. simpl.
  rewrite Hrecv.
  destruct (batch (gr s)) as [|x b] eqn:Hb.
  - simpl. eexists. split; [reflexivity|]. split; [reflexivity|].
    split; [apply at_select_true; simpl; auto|].
    split; [reflexivity|]. split; [reflexivity|]. intros H; contradiction.
  - unfold GoInt.len. simpl length.
    destruct (0 <? Z.of_nat (S (length b))) eqn:Hpos;
      [|apply Z.ltb_ge in Hpos; lia].
    destruct (flush_total (cl s) (elapse dt (wd s)) (x :: b) false Hnil')
      as (c1 & w1 & r & Hf).
    rewrite Hf.
    eexists. split; [reflexivity|]. split; [reflexivity|].
    pose proof (flush_frame _ _ _ _ _ _ _ Hf) as (_ & _ & _ & _ & _ & Hce & _).
    split; [apply at_select_true; simpl; rewrite Hce; auto|].
    split; [reflexivity|]. split; [discriminate|]. intros _.
    apply flush_spec in Hf as (new & Hfc & Hc & _).
    exists new. split; [eapply flush_calls_nonempty; eassumption|].
    split; [exact Hc|]. eapply flush_calls_sent; eassumption.
Qed.

Lemma timer_case_due_within_interval_witness :
  exists s1 s2,
    step (after (sys3 always_ok) [line 1; SenderRecv]) (Elapse 1000000000) = Next s1 /\
    step s1 SenderTimer = Next s2 /\
    batch (gr s2) = [].
Proof.
  destruct (timer_case_due_within_interval dial_ok opts3 client3 0 always_ok
              [line 1; SenderRecv] (after (sys3 always_ok) [line 1; SenderRecv])
              1000000000)
    as (s1 & s2 & H1 & H2 & _ & Hb & _).
  - reflexivity.
  - vm_compute. discriminate.
  - vm_compute. reflexivity.
  - vm_compute. reflexivity.
  - vm_compute. discriminate.
  - exists s1, s2. auto.
Defined.

(** ** After the return *)

Lemma step_after_return (s s' : System) (a : Action) :
  returned (gr s) = true ->
  closeErrors (cl s) = None ->
  step s a = Next s' ->
  returned (gr s') = true /\ closeErrors (cl s') = None /\
  calls (wd s') = calls (wd s) /\ printed (wd s') = printed (wd s) /\
  closeResults (wd s') = closeResults (wd s) /\
  sender (cl s') = sender (cl s) /\ batch (gr s') = batch (gr s).
Proof.
  intros Hret Hnone Hs.
  assert (at_select s = false) as Hn by (apply at_select_false; auto).
  destruct a; try (rewrite (not_at_select_sender s _ Hn) in Hs by auto; discriminate);
    cbn [step] in Hs.
  1-3: unfold lift, EmitLog, EmitGauge, EmitCounter in Hs;
       match type of Hs with context [emit_envelope ?c ?oe] =>
         destruct (emit_envelope c oe) as [c1| |] eqn:E; try discriminate;
         apply emit_envelope_done in E as (e & _ & _ & _ & ->) end;
       inversion Hs; subst s'; simpl; auto 10.
  - unfold CloseSend_close, Chan.close in Hs.
    destruct (Chan.closed _); [discriminate|].
    inversion Hs; subst s'; simpl; auto 10.
  - destruct (closers (wd s)); [discriminate|].
    unfold CloseSend_recv in Hs. rewrite Hnone in Hs. discriminate.
  - inversion Hs; subst s'; simpl; auto 10.
Qed.

(** X12. [CloseSend] returns at most once. Once it has returned, the
    client calls neither the transport nor the logger again, whatever
    is asked of it, and what [CloseSend] returned stays its only
    result. *)
Theorem nothing_happens_after_CloseSend_returns
  (dial : string -> option Err) (opts : list IngressOption) (c : IngressClient)
  (start : Z) (net : nat -> Reply) (acts acts' : list Action) (s s' : System) :
  NewIngressClient dial opts = inr c ->
  run (boot start net c) acts = Next s ->
  run s acts' = Next s' ->
  (length (closeResults (wd s)) <= 1)%nat /\
  (closeResults (wd s) <> [] ->
     calls (wd s') = calls (wd s) /\
     printed (wd s') = printed (wd s) /\
     closeResults (wd s') = closeResults (wd s)).
Proof.
  intros Hnew Hrun Hrun'.
  assert (reached s) as Hre by (unfold reached; eauto 10).
  pose proof (wm_results _ (reached_wf_more _ Hre)) as Hr.
  split.
  - destruct (returned (gr s)).
    + destruct Hr as (_ & -> & _). lia.
    + destruct Hr as (-> & _). simpl. lia.
  - intros Hne.
    destruct (returned (gr s)) eqn:Hret; [|destruct Hr; contradiction].
    destruct Hr as (Hnone & _).
    clear Hrun Hre Hne. revert s Hret Hnone Hrun'.
    induction acts' as [|a acts' IH]; intros s Hret Hnone; simpl.
    + intros H; inversion H; subst. auto.
    + destruct (step s a) as [s1| | |] eqn:E; try discriminate.
      intros Hrun'.
      destruct (step_after_return _ _ _ Hret Hnone E)
        as (Hret1 & Hnone1 & Hc & Hp & Hrs & _).
      destruct (IH _ Hret1 Hnone1 Hrun') as (-> & -> & ->). auto.
Qed.

Lemma nothing_happens_after_CloseSend_returns_witness :
  closeResults (wd (after (sys3 always_ok) shutdown_run)) <> [] /\
  calls (wd (after (sys3 always_ok) (shutdown_run ++ [Elapse 9])))
  = calls (wd (after (sys3 always_ok) shutdown_run)).
Proof.
  assert (closeResults (wd (after (sys3 always_ok) shutdown_run)) <> []) as Hne
    by (vm_compute; discriminate).
  split; [exact Hne|].
  destruct (nothing_happens_after_CloseSend_returns dial_ok opts3 client3 0 always_ok
              shutdown_run [Elapse 9]
              (after (sys3 always_ok) shutdown_run)
              (after (sys3 always_ok) (shutdown_run ++ [Elapse 9])))
    as (_ & H).
  - reflexivity.
  - vm_compute. reflexivity.
  - vm_compute. reflexivity.
  - apply (H Hne).
Defined.

(** ** The shutdown ends *)

Lemma recv_turn (s : System) :
  wf s ->
  logger (cl s) <> NilLogger ->
  at_select s = true ->
  Chan.closed (envelopes (cl s)) = true ->
  exists s', step s SenderRecv = Next s' /\
    Chan.closed (envelopes (cl s')) = true /\
    closers (wd s') = closers (wd s) /\
    closeResults (wd s') = closeResults (wd s) /\
    match Chan.buf (envelopes (cl s)) with
    | [] => at_select s' = false /\ is_Some (closeErrors (cl s'))
    | _ :: rest => at_select s' = true /\ Chan.buf (envelopes (cl s')) = rest
    end.
Proof.
  intros Hwf Hl Hsel Hcl.
  destruct (sender_step_total s SenderRecv Hwf Hl (or_introl eq_refl))
    as [Hn | [s' Hs]].
  - exfalso. cbn [step startSender] in Hn. unfold sender_recv, Chan.recv in Hn.
    rewrite Hsel, Hcl in Hn.
    destruct (Chan.buf (envelopes (cl s))).
    + destruct (flush_total (cl s) (wd s) (batch (gr s)) true Hl)
        as (? & ? & ? & Hf).
      rewrite Hf in Hn. discriminate.
    + destruct (_ >=? _).
      * match type of Hn with context [flush ?c0 ?w ?b false] =>
          destruct (flush_total c0 w b false Hl) as (? & ? & ? & Hf) end.
        rewrite Hf in Hn.
        destruct (restart_timer _ _ _); discriminate.
      * discriminate.
  - exists s'. split; [exact Hs|].
    pose proof (closed_stays _ _ _ Hs Hcl) as Hcl'.
    pose proof (only_CloseSend_returns _ _ SenderRecv ltac:(discriminate) Hs) as Hrs.
    pose proof (step_wf _ _ _ Hwf Hs) as Hwf'.
    cbn [step startSender] in Hs.
    apply sender_recv_inv in Hs as [_ [(Hbuf & _ & c1 & w1 & r & Hf & ->)
      | (env & rest & Hbuf & [(Hge & c1 & w1 & r & Hf & tm & Hrt & ->) | (Hlt & ->)])]];
      rewrite Hbuf; simpl in *.
    + apply flush_frame in Hf as (_ & _ & _ & _ & _ & _ & _ & Hcs & _).
      repeat split; eauto; unfold at_select; simpl; by rewrite andb_false_r.
    + pose proof (flush_frame _ _ _ _ _ _ _ Hf) as (He & _ & _ & _ & _ & Hce & _ & Hcs & _).
      apply at_select_true in Hsel as [_ Hnone].
      repeat split; auto;
        first [ by rewrite He | apply at_select_true; simpl; rewrite Hce; auto ].
    + apply at_select_true in Hsel as [_ Hnone].
      repeat split; auto; apply at_select_true; simpl; auto.
Qed.

Lemma drain_turns (n : nat) (s : System) :
  wf s ->
  logger (cl s) <> NilLogger ->
  at_select s = true ->
  Chan.closed (envelopes (cl s)) = true ->
  length (Chan.buf (envelopes (cl s))) = n ->
  exists s', run s (replicate (S n) SenderRecv) = Next s' /\
    at_select s' = false /\ is_Some (closeErrors (cl s')) /\
    closers (wd s') = closers (wd s) /\
    closeResults (wd s') = closeResults (wd s).
Proof.
  revert s. induction n as [|n IH]; intros s Hwf Hl Hsel Hcl Hlen;
    destruct (recv_turn s Hwf Hl Hsel Hcl) as (s1 & Hs & Hcl1 & Hc1 & Hr1 & Hshape);
    destruct (Chan.buf (envelopes (cl s))) as [|env rest] eqn:Hbuf;
    simpl in Hlen; try discriminate.
  - destruct Hshape as (Hn & Hoffer).
    exists s1. change (replicate 1 SenderRecv) with [SenderRecv].
    cbn [run]. rewrite Hs. auto.
  - destruct Hshape as (Hsel1 & Hbuf1).
    assert (logger (cl s1) <> NilLogger) as Hl1.
    { apply step_config in Hs as (_ & _ & _ & -> & _). exact Hl. }
    destruct (IH s1 (step_wf _ _ _ Hwf Hs) Hl1 Hsel1 Hcl1)
      as (s' & Hrun & Hn & Ho & Hc & Hr).
    { rewrite Hbuf1. lia. }
    exists s'. change (replicate (S (S n)) SenderRecv)
      with (SenderRecv :: replicate (S n) SenderRecv).
    cbn [run]. rewrite Hs. repeat split; auto; congruence.
Qed.

(** X13. When the logger of the client is not nil, the shutdown ends:
    once the queue is closed, as many turns of the goroutine as the
    queue holds records, and one more, bring it to the final flush,
    whatever the transport answers, and [CloseSend] then returns, for
    the first and only time. *)
Theorem shutdown_terminates
  (dial : string -> option Err) (opts : list IngressOption) (c : IngressClient)
  (start : Z) (net : nat -> Reply) (acts : list Action) (s : System) :
  NewIngressClient dial opts = inr c ->
  logger c <> NilLogger ->
  run (boot start net c) acts = Next s ->
  Chan.closed (envelopes (cl s)) = true ->
  at_select s = true ->
  exists s1 s2 r,
    run s (replicate (S (length (Chan.buf (envelopes (cl s))))) SenderRecv) = Next s1 /\
    step s1 ReturnCloseSend = Next s2 /\
    closeResults (wd s2) = [r].
Proof.
  intros Hnew Hnil Hrun Hcl Hsel.
  assert (reached s) as Hre by (unfold reached; eauto 10).
  pose proof (reached_wf _ Hre) as Hwf.
  pose proof (wm_results _ (reached_wf_more _ Hre)) as Hr.
  pose proof (run_config _ _ _ Hrun) as (_ & _ & _ & Hlog & _). simpl in Hlog.
  assert (logger (cl s) <> NilLogger) as Hnil' by congruence.
  apply at_select_true in Hsel as Hsel'. destruct Hsel' as [Hret _].
  rewrite Hret, Hcl in Hr. destruct Hr as (Hrs & Hclosers).
  destruct (drain_turns _ s Hwf Hnil' Hsel Hcl eq_refl)
    as (s1 & Hrun1 & Hn & [r Ho] & Hc & Hr1).
  exists s1. cbn [step]. rewrite Hc, Hclosers.
  unfold CloseSend_recv. rewrite Ho.
  eexists _, r. split; [exact Hrun1|]. split; [reflexivity|].
  simpl. by rewrite Hr1, Hrs.
Qed.

Lemma shutdown_terminates_witness :
  exists s1 s2 r,
    run (after (sys3 broken_send) (five_lines ++ [CallCloseSend]))
      (replicate 6 SenderRecv) = Next s1 /\
    step s1 ReturnCloseSend = Next s2 /\
    closeResults (wd s2) = [r].
Proof.
  apply (shutdown_terminates dial_ok opts3 client3 0 broken_send
           (five_lines ++ [CallCloseSend])
           (after (sys3 broken_send) (five_lines ++ [CallCloseSend]))).
  - reflexivity.
  - vm_compute. discriminate.
  - vm_compute. reflexivity.
  - vm_compute. reflexivity.
  - vm_compute. reflexivity.
Defined.

(** ** The use of the stream *)

Lemma replay_app (l1 l2 : list Call) (live : option nat) (n : nat) :
  replay live n (l1 ++ l2)
  = replay live n l1 ≫= fun live' => replay live' (n + length l1) l2.
Proof.
  revert live n. induction l1 as [|k l1 IH]; intros live n; simpl.
  - by rewrite Nat.add_0_r.
  - replace (n + S (length l1))%nat with (S n + length l1)%nat by lia.
    destruct k as [r|h b r|h r].
    + destruct live; [reflexivity|]. apply IH.
    + case_decide; [apply IH|reflexivity].
    + case_decide; [apply IH|reflexivity].
Qed.

Lemma flush_calls_replay (c : IngressClient) (w : World) (b : list Envelope)
  (close : bool) (new : list Call) (h : option nat) (r : option Err) :
  flush_calls c w b close new h r ->
  replay (sender c) (length (calls w)) new = Some h.
Proof.
  destruct 1 as [err Hs | est h0 err Ho | est h0 Ho Hc | est h0 r Ho Hc];
    [by rewrite Hs| | |];
    destruct Ho as [h0 Hl | Hn]; simpl;
    rewrite ?Hl, ?Hn; simpl; repeat case_decide; congruence.
Qed.

Lemma step_replay (s s' : System) (a : Action) (start : option nat) :
  wf s ->
  replay start 0 (calls (wd s)) = Some (sender (cl s)) ->
  step s a = Next s' ->
  replay start 0 (calls (wd s')) = Some (sender (cl s')).
Proof.
  intros Hwf Hre Hs.
  destruct (step_cases _ _ _ Hwf Hs) as [Hq | (c0 & b & close & r & Hfl)].
  - apply quiet_calls in Hq as (-> & _ & ->). exact Hre.
  - destruct Hfl as [_ _ Hsd _ (c1 & Hf & ->) _ _ _].
    apply flush_spec in Hf as (new & Hfc & -> & _).
    rewrite replay_app, Hre. simpl. rewrite <- Hsd.
    eapply flush_calls_replay. eassumption.
Qed.

(** X14. The history of transport calls keeps the discipline of the
    stream, and ends with the stream the client holds: [BatchSender] is
    called only when no stream is open, every [Send] and the stream
    close go to the stream opened last, and no call is made on a stream
    after a send on it has failed. *)
Theorem transport_calls_keep_stream_discipline
  (dial : string -> option Err) (opts : list IngressOption) (c : IngressClient)
  (start : Z) (net : nat -> Reply) (acts : list Action) (s : System) :
  NewIngressClient dial opts = inr c ->
  run (boot start net c) acts = Next s ->
  replay None 0 (calls (wd s)) = Some (sender (cl s)).
Proof.
  intros Hnew Hrun.
  pose proof (new_client_fresh _ _ _ Hnew) as (He & Hce & Hsd).
  assert (forall acts s0 s1, wf s0 ->
            replay None 0 (calls (wd s0)) = Some (sender (cl s0)) ->
            run s0 acts = Next s1 ->
            replay None 0 (calls (wd s1)) = Some (sender (cl s1))) as Hgen.
  { clear. induction acts as [|a acts IH]; intros s0 s1 Hwf Hre; simpl.
    - intros H; inversion H; subst; assumption.
    - destruct (step s0 a) as [s2| | |] eqn:E; try discriminate.
      apply IH; [eapply step_wf; eassumption|].
      eapply step_replay; eassumption. }
  apply (Hgen acts (boot start net c)); [by apply boot_wf| |exact Hrun].
  simpl. by rewrite Hsd.
Qed.

Lemma transport_calls_keep_stream_discipline_witness :
  replay None 0
    (calls (wd (after (sys3 broken_send)
                  (two_received ++ [SenderRecv] ++ fourth_received ++ [SenderTimer]))))
  = Some (Some 2%nat).
Proof.
  rewrite (transport_calls_keep_stream_discipline dial_ok opts3 client3 0 broken_send
             (two_received ++ [SenderRecv] ++ fourth_received ++ [SenderTimer])
             (after (sys3 broken_send)
                (two_received ++ [SenderRecv] ++ fourth_received ++ [SenderTimer]))).
  - vm_compute. reflexivity.
  - reflexivity.
  - vm_compute. reflexivity.
Defined.

Lemma count_calls_app (p : Call -> bool) (l1 l2 : list Call) :
  count_calls p (l1 ++ l2) = (count_calls p l1 + count_calls p l2)%nat.
Proof. unfold count_calls. by rewrite filter_app, length_app. Qed.

Lemma flush_calls_opens (c : IngressClient) (w : World) (b : list Envelope)
  (close : bool) (new : list Call) (h : option nat) (r : option Err) :
  flush_calls c w b close new h r ->
  (count_calls is_BatchSender new + streams_held (sender c)
   = streams_held h + count_calls is_failed_open new
     + count_calls is_failed_send new)%nat.
Proof.
  destruct 1 as [err Hs | est h0 err Ho | est h0 Ho Hc | est h0 r Ho Hc];
    [by rewrite Hs| | |];
    destruct Ho as [h0 Hl | Hn]; rewrite ?Hl, ?Hn; reflexivity.
Qed.

(** X15. A stream is opened for the first flush, and once more after
    each failed opening and each failed send, never otherwise: the
    number of [BatchSender] calls is the number of failed openings and
    of failed sends, and one more while the client holds a stream. *)
Theorem streams_opened_only_after_failures
  (dial : string -> option Err) (opts : list IngressOption) (c : IngressClient)
  (start : Z) (net : nat -> Reply) (acts : list Action) (s : System) :
  NewIngressClient dial opts = inr c ->
  run (boot start net c) acts = Next s ->
  count_calls is_BatchSender (calls (wd s))
  = (streams_held (sender (cl s))
     + count_calls is_failed_open (calls (wd s))
     + count_calls is_failed_send (calls (wd s)))%nat.
Proof.
  intros Hnew Hrun.
  pose proof (new_client_fresh _ _ _ Hnew) as (He & Hce & Hsd).
  assert (forall acts s0 s1, wf s0 ->
            count_calls is_BatchSender (calls (wd s0))
            = (streams_held (sender (cl s0))
               + count_calls is_failed_open (calls (wd s0))
               + count_calls is_failed_send (calls (wd s0)))%nat ->
            run s0 acts = Next s1 ->
            count_calls is_BatchSender (calls (wd s1))
            = (streams_held (sender (cl s1))
               + count_calls is_failed_open (calls (wd s1))
               + count_calls is_failed_send (calls (wd s1)))%nat) as Hgen.
  { clear. induction acts as [|a acts IH]; intros s0 s1 Hwf Hinv; simpl.
    - intros H; inversion H; subst; assumption.
    - destruct (step s0 a) as [s2| | |] eqn:E; try discriminate.
      apply IH; [eapply step_wf; eassumption|].
      destruct (step_cases _ _ _ Hwf E) as [Hq | (c0 & b & close & r & Hfl)].
      + apply quiet_calls in Hq as (-> & _ & ->). exact Hinv.
      + destruct Hfl as [_ _ Hsd _ (c1 & Hf & ->) _ _ _].
        apply flush_spec in Hf as (new & Hfc & -> & _).
        apply flush_calls_opens in Hfc. rewrite Hsd in Hfc.
        rewrite !count_calls_app. lia. }
  apply (Hgen acts (boot start net c)); [by apply boot_wf| |exact Hrun].
  simpl. by rewrite Hsd.
Qed.

Lemma streams_opened_only_after_failures_witness :
  count_calls is_BatchSender
    (calls (wd (after (sys3 broken_send)
                  (two_received ++ [SenderRecv] ++ fourth_received ++ [SenderTimer]))))
  = 2%nat.
Proof.
  rewrite (streams_opened_only_after_failures dial_ok opts3 client3 0 broken_send
             (two_received ++ [SenderRecv] ++ fourth_received ++ [SenderTimer])
             (after (sys3 broken_send)
                (two_received ++ [SenderRecv] ++ fourth_received ++ [SenderTimer]))).
  - vm_compute. reflexivity.
  - reflexivity.
  - vm_compute. reflexivity.
Defined.

(** ** The stream close *)

Lemma step_not_at_select (s s' : System) (a : Action) :
  at_select s = false ->
  step s a = Next s' ->
  at_select s' = false /\ calls (wd s') = calls (wd s).
Proof.
  intros Hn Hs.
  destruct a; try (rewrite (not_at_select_sender s _ Hn) in Hs by auto; discriminate);
    cbn [step] in Hs.
  1-3: unfold lift, EmitLog, EmitGauge, EmitCounter in Hs;
       match type of Hs with context [emit_envelope ?c ?oe] =>
         destruct (emit_envelope c oe) as [c1| |] eqn:E; try discriminate;
         apply emit_envelope_done in E as (e & _ & _ & _ & ->) end;
       inversion Hs; subst s'; simpl; auto.
  - unfold CloseSend_close, Chan.close in Hs.
    destruct (Chan.closed _); [discriminate|].
    inversion Hs; subst s'; simpl; auto.
  - destruct (closers (wd s)); [discriminate|].
    unfold CloseSend_recv in Hs.
    destruct (closeErrors (cl s)); [|discriminate].
    inversion Hs; subst s'; simpl; auto.
  - inversion Hs; subst s'; simpl; auto.
Qed.

Lemma flush_calls_close (c : IngressClient) (w : World) (b : list Envelope)
  (close : bool) (new : list Call) (h : option nat) (r : option Err) :
  flush_calls c w b close new h r ->
  Forall (fun k => is_StreamCloseSend k = false) new \/
  (close = true /\ exists pre k, new = pre ++ [k] /\
     Forall (fun k => is_StreamCloseSend k = false) pre).
Proof.
  destruct 1 as [err Hs | est h0 err Ho | est h0 Ho Hc | est h0 r Ho Hc].
  - left. repeat constructor.
  - left. apply Forall_app. split; [|repeat constructor].
    destruct Ho; repeat constructor.
  - left. apply Forall_app. split; [|repeat constructor].
    destruct Ho; repeat constructor.
  - right. split; [assumption|].
    exists (est ++ [Send h0 b None]), (StreamCloseSend h0 r).
    rewrite <- app_assoc. split; [reflexivity|].
    apply Forall_app. split; [|repeat constructor].
    destruct Ho; repeat constructor.
Qed.

Lemma step_closes_last (s s' : System) (a : Action) :
  wf s ->
  (at_select s = true -> Forall (fun k => is_StreamCloseSend k = false) (calls (wd s))) ->
  closes_last (calls (wd s)) ->
  step s a = Next s' ->
  (at_select s' = true -> Forall (fun k => is_StreamCloseSend k = false) (calls (wd s'))) /\
  closes_last (calls (wd s')).
Proof.
  intros Hwf Hopen Hlast Hs.
  destruct (at_select s) eqn:Hsel.
  - specialize (Hopen eq_refl).
    destruct (step_cases _ _ _ Hwf Hs) as [Hq | (c0 & b & close & r & Hfl)].
    + apply quiet_calls in Hq as (-> & _). split; [auto|assumption].
    + destruct Hfl as [_ _ _ _ (c1 & Hf & _) _ Hfinal _].
      apply flush_spec in Hf as (new & Hfc & -> & _).
      destruct (flush_calls_close _ _ _ _ _ _ _ Hfc)
        as [Hnone | (-> & pre & k & -> & Hpre)].
      * split; [intros _|left]; apply Forall_app; auto.
      * destruct (Hfinal eq_refl) as (_ & _ & _ & _ & Hce & _).
        split.
        { intros Hsel'. apply at_select_true in Hsel' as [_ Hn]. congruence. }
        right. exists (calls (wd s) ++ pre), k. rewrite <- app_assoc.
        split; [reflexivity|]. apply Forall_app. auto.
  - destruct (step_not_at_select _ _ _ Hsel Hs) as (Hn & ->).
    split; [congruence|assumption].
Qed.

(** X16. The stream is closed at most once, by the final flush: a
    stream close in the history of transport calls is its last call, and
    the goroutine has left its loop. *)
Theorem stream_closed_last_and_once
  (dial : string -> option Err) (opts : list IngressOption) (c : IngressClient)
  (start : Z) (net : nat -> Reply) (acts : list Action) (s : System)
  (pre post : list Call) (k : Call) :
  NewIngressClient dial opts = inr c ->
  run (boot start net c) acts = Next s ->
  calls (wd s) = pre ++ k :: post ->
  is_StreamCloseSend k = true ->
  post = [] /\ at_select s = false /\
  Forall (fun k => is_StreamCloseSend k = false) pre.
Proof.
  intros Hnew Hrun Hcalls Hk.
  pose proof (new_client_fresh _ _ _ Hnew) as (He & Hce & Hsd).
  assert (forall acts s0 s1, wf s0 ->
            (at_select s0 = true ->
               Forall (fun k => is_StreamCloseSend k = false) (calls (wd s0))) ->
            closes_last (calls (wd s0)) ->
            run s0 acts = Next s1 ->
            (at_select s1 = true ->
               Forall (fun k => is_StreamCloseSend k = false) (calls (wd s1))) /\
            closes_last (calls (wd s1))) as Hgen.
  { clear. induction acts as [|a acts IH]; intros s0 s1 Hwf Ho Hl; simpl.
    - intros H; inversion H; subst; auto.
    - destruct (step s0 a) as [s2| | |] eqn:E; try discriminate.
      destruct (step_closes_last _ _ _ Hwf Ho Hl E) as (Ho2 & Hl2).
      apply IH; [eapply step_wf; eassumption|assumption|assumption]. }
  destruct (Hgen acts (boot start net c) s) as (Hopen & Hlast);
    [by apply boot_wf | intros _; constructor | left; constructor | exact Hrun |].
  assert (~ Forall (fun k => is_StreamCloseSend k = false) (calls (wd s))) as Hnot.
  { rewrite Hcalls. intros H. apply Forall_app in H as [_ H].
    inversion H; subst. congruence. }
  destruct Hlast as [Hall | (pre' & k' & Heq & Hpre')]; [contradiction|].
  assert (post = [] /\ pre = pre') as (-> & ->).
  { rewrite Hcalls in Heq.
    destruct post as [|x post] using rev_ind.
    - apply app_inj_tail in Heq as [-> _]. auto.
    - exfalso. clear IHpost.
      change (pre ++ k :: post ++ [x]) with (pre ++ (k :: post) ++ [x]) in Heq.
      rewrite app_assoc in Heq. apply app_inj_tail in Heq as [<- _].
      apply Forall_app in Hpre' as [_ H]. inversion H; subst. congruence. }
  split; [reflexivity|]. split; [|assumption].
  destruct (at_select s); [|reflexivity]. exfalso. auto.
Qed.

Lemma stream_closed_last_and_once_witness :
  exists pre k,
    calls (wd (after (sys3 always_ok) shutdown_run)) = pre ++ [k] /\
    is_StreamCloseSend k = true /\
    Forall (fun k => is_StreamCloseSend k = false) pre.
Proof.
  exists (removelast (calls (wd (after (sys3 always_ok) shutdown_run)))),
         (StreamCloseSend 0 None).
  assert (calls (wd (after (sys3 always_ok) shutdown_run))
          = removelast (calls (wd (after (sys3 always_ok) shutdown_run)))
            ++ [StreamCloseSend 0 None]) as Heq by (vm_compute; reflexivity).
  split; [exact Heq|]. split; [reflexivity|].
  apply (stream_closed_last_and_once dial_ok opts3 client3 0 always_ok shutdown_run
           (after (sys3 always_ok) shutdown_run) _ [] (StreamCloseSend 0 None)).
  - reflexivity.
  - vm_compute. reflexivity.
  - exact Heq.
  - reflexivity.
Defined.

(** ** Ordering on a transport that fails *)

(** What a step does to the records the client holds: those submitted
    join them at the back, and a flush takes its batch from the front,
    handing it to [Send] or, when no stream can be opened, to nothing. *)
Lemma step_flushes (s s' : System) (a : Action) :
  wf s ->
  step s a = Next s' ->
  exists fb,
    in_flight s ++ submitted (cl s) a = fb ++ in_flight s' /\
    (sent_batches (calls (wd s')) = sent_batches (calls (wd s)) \/
     sent_batches (calls (wd s')) = sent_batches (calls (wd s)) ++ [fb]).
Proof.
  intros [_ Hd _ _] Hs.
  destruct a.
  1-3: match type of Hs with step _ ?a = _ =>
         destruct (step_emitter s a ltac:(simpl; eauto)) as (oe & Hsub & Hstep) end;
       rewrite Hstep in Hs; rewrite Hsub; clear Hsub Hstep;
       unfold lift in Hs;
       destruct (emit_envelope (cl s) oe) as [c1| |] eqn:E; try discriminate;
       apply emit_envelope_done in E as (e & -> & Hopen & _ & ->);
       inversion Hs; subst s'; clear Hs; simpl; exists [];
       (split; [|by left]);
       destruct (at_select s) eqn:Hsel;
       [ unfold in_flight, at_select in *; simpl in *; rewrite Hsel; simpl;
         by rewrite <- !app_assoc
       | destruct (Hd eq_refl); congruence ].
  - (* CallCloseSend *)
    cbn [step] in Hs. unfold CloseSend_close, Chan.close in Hs.
    destruct (Chan.closed _); [discriminate|].
    inversion Hs; subst s'; simpl. exists []. split; [|by left].
    unfold in_flight, at_select; simpl. by rewrite !(right_id_L [] (++)).
  - (* ReturnCloseSend *)
    cbn [step] in Hs.
    destruct (closers (wd s)); [discriminate|].
    unfold CloseSend_recv in Hs.
    destruct (closeErrors (cl s)) eqn:Hce; [|discriminate].
    inversion Hs; subst s'; simpl. exists []. split; [|by left].
    unfold in_flight, at_select; simpl. rewrite Hce. by rewrite !andb_false_r.
  - (* SenderRecv *)
    cbn [step startSender] in Hs.
    apply sender_recv_inv in Hs as [Hsel [(Hbuf & Hcl & c1 & w1 & r & Hf & ->)
      | (env & rest & Hbuf & [(Hge & c1 & w1 & r & Hf & tm & Hrt & ->) | (Hlt & ->)])]].
    + exists (batch (gr s)). split.
      * unfold in_flight. rewrite Hsel, Hbuf. unfold at_select; simpl.
        by rewrite andb_false_r, !(right_id_L [] (++)).
      * cbn [wd]. apply flush_sent in Hf as (new & -> & [H|H]);
          rewrite sent_batches_app, H; [by right|left].
        by rewrite (right_id_L [] (++)).
    + exists (batch (gr s) ++ [env]). split.
      * pose proof (flush_frame _ _ _ _ _ _ _ Hf) as (He & _ & _ & _ & _ & Hce & _).
        apply at_select_true in Hsel as Hsel'. destruct Hsel' as [_ Hnone].
        unfold in_flight. rewrite Hsel, Hbuf. unfold at_select; simpl.
        rewrite Hce, He. simpl. rewrite Hnone. simpl.
        rewrite !(right_id_L [] (++)). by rewrite <- !app_assoc.
      * cbn [wd]. apply flush_sent in Hf as (new & -> & [H|H]);
          rewrite sent_batches_app, H; [by right|left].
        by rewrite (right_id_L [] (++)).
    + exists []. split; [|by left].
      apply at_select_true in Hsel as Hsel'. destruct Hsel' as [_ Hnone].
      unfold in_flight. rewrite Hsel, Hbuf. unfold at_select; simpl.
      rewrite Hnone. simpl. rewrite !(right_id_L [] (++)). by rewrite <- !app_assoc.
  - (* SenderTimer *)
    cbn [step startSender] in Hs.
    apply sender_timer_inv in Hs as [Hsel (tm & Hrecv & [(Hne & c1 & w1 & r & Hf & ->) | (Hb & ->)])].
    + exists (batch (gr s)). split.
      * pose proof (flush_frame _ _ _ _ _ _ _ Hf) as (He & _ & _ & _ & _ & Hce & _).
        apply at_select_true in Hsel as Hsel'. destruct Hsel' as [_ Hnone].
        unfold in_flight. rewrite Hsel. unfold at_select; simpl.
        rewrite Hce, He, Hnone. simpl. by rewrite !(right_id_L [] (++)).
      * cbn [wd]. apply flush_sent in Hf as (new & -> & [H|H]);
          rewrite sent_batches_app, H; [by right|left].
        by rewrite (right_id_L [] (++)).
    + exists []. split; [|by left].
      apply at_select_true in Hsel as Hsel'. destruct Hsel' as [_ Hnone].
      unfold in_flight. rewrite Hsel, Hb. unfold at_select; simpl.
      rewrite Hnone. simpl. by rewrite !(right_id_L [] (++)).
  - (* Elapse *)
    inversion Hs; subst s'; simpl. exists []. split; [|by left].
    unfold in_flight, at_select; simpl. by rewrite !(right_id_L [] (++)).
Qed.

Lemma run_flushes (acts : list Action) (s s' : System) :
  wf s ->
  run s acts = Next s' ->
  exists fl rest,
    in_flight s ++ accepted (cl s) acts = fl ++ in_flight s' /\
    concat (sent_batches (calls (wd s')))
    = concat (sent_batches (calls (wd s))) ++ rest /\
    sublist rest fl.
Proof.
  revert s. induction acts as [|a acts IH]; intros s Hwf; simpl.
  - intros H; inversion H; subst. exists [], []. unfold accepted. simpl.
    rewrite !(right_id_L [] (++)). auto using sublist_nil_l.
  - destruct (step s a) as [s1| | |] eqn:E; try discriminate.
    intros Hrun.
    pose proof (step_config _ _ _ E) as (Htags & _).
    destruct (step_flushes _ _ _ Hwf E) as (fb & Hfb & Hsent).
    destruct (IH _ (step_wf _ _ _ Hwf E) Hrun) as (fl & rest & Hfl & Hc & Hsub).
    rewrite (accepted_tags _ _ _ Htags) in Hfl.
    exists (fb ++ fl).
    assert (in_flight s ++ accepted (cl s) (a :: acts) = (fb ++ fl) ++ in_flight s')
      as Heq.
    { unfold accepted in *. simpl. rewrite app_assoc, Hfb, <- !app_assoc.
      by rewrite Hfl. }
    destruct Hsent as [Hsame | Hmore].
    + exists rest. split; [exact Heq|]. rewrite Hc, Hsame.
      split; [reflexivity|]. by apply sublist_inserts_l.
    + exists (fb ++ rest). split; [exact Heq|]. rewrite Hc, Hmore, concat_app.
      simpl. rewrite (right_id_L [] (++)), <- app_assoc.
      split; [reflexivity|]. by apply sublist_app.
Qed.

(** X17. On any transport, failing or not, the records handed to
    [Send], in call order, are taken in order from the records accepted
    by the queue and no longer held by the client, each at most once: a
    failure can drop records, it never reorders or repeats them. *)
Theorem sent_records_in_order_on_any_transport
  (dial : string -> option Err) (opts : list IngressOption) (c : IngressClient)
  (start : Z) (net : nat -> Reply) (acts : list Action) (s : System) :
  NewIngressClient dial opts = inr c ->
  run (boot start net c) acts = Next s ->
  exists flushed,
    accepted c acts = flushed ++ in_flight s /\
    sublist (concat (sent_batches (calls (wd s)))) flushed.
Proof.
  intros Hnew Hrun.
  pose proof (new_client_fresh _ _ _ Hnew) as (He & Hce & _).
  destruct (run_flushes acts _ _ (boot_wf start net c Hce He) Hrun)
    as (fl & rest & Hfl & Hc & Hsub).
  exists fl. simpl in *.
  assert (in_flight (boot start net c) = []) as Hin.
  { unfold in_flight. simpl. rewrite He. by destruct (at_select _). }
  rewrite Hin in Hfl. split; [exact Hfl|]. by rewrite Hc.
Qed.

Lemma sent_records_in_order_on_any_transport_witness :
  exists flushed,
    accepted client3 (five_lines ++ five_receives)
    = flushed ++ in_flight (after (sys3 (fails_at 0 "refused" 0)) (five_lines ++ five_receives)) /\
    sublist (concat (sent_batches
                       (calls (wd (after (sys3 (fails_at 0 "refused" 0))
                                     (five_lines ++ five_receives))))))
      flushed.
Proof.
  apply (sent_records_in_order_on_any_transport dial_ok opts3 client3 0
           (fails_at 0 "refused" 0) (five_lines ++ five_receives)).
  - reflexivity.
  - vm_compute. reflexivity.
Defined.

(** ** The first interval *)

(** X20. The timer is armed when the goroutine starts: no turn of the
    loop can take the timer case before one flush interval has gone by
    since the start of the client. *)
Theorem no_timer_case_in_first_interval
  (dial : string -> option Err) (opts : list IngressOption) (c : IngressClient)
  (start : Z) (net : nat -> Reply) (acts : list Action) (s s' : System) :
  NewIngressClient dial opts = inr c ->
  run (boot start net c) acts = Next s ->
  step s SenderTimer = Next s' ->
  start + batchFlushInterval c <= now (wd s).
Proof.
  intros Hnew Hrun Htimer.
  pose proof (new_client_fresh _ _ _ Hnew) as (He & Hce & _).
  assert (silent_until start (start + batchFlushInterval c) (boot start net c)) as Hsil.
  { unfold silent_until. simpl. split; [lia|]. split; [discriminate|].
    intros d Hd. inversion Hd; subst. lia. }
  apply (run_silent _ _ acts _ s (boot_wf start net c Hce He) eq_refl) in Hsil;
    [|exact Hrun].
  destruct Hsil as (_ & Hp & Hd).
  cbn [step startSender] in Htimer.
  apply sender_timer_inv in Htimer as (_ & tm & Hrecv & _).
  apply timer_recv_enabled in Hrecv as [Hpe | (dl & Hdl & Hle)].
  - exact (Hp Hpe).
  - specialize (Hd _ Hdl). simpl in *. lia.
Qed.

Lemma no_timer_case_in_first_interval_witness :
  1000000000 <= now (wd (after (sys3 always_ok) [line 1; Elapse 1000000005; SenderRecv])).
Proof.
  apply (no_timer_case_in_first_interval dial_ok opts3 client3 0 always_ok
           [line 1; Elapse 1000000005; SenderRecv]
           (after (sys3 always_ok) [line 1; Elapse 1000000005; SenderRecv])
           (after (sys3 always_ok) [line 1; Elapse 1000000005; SenderRecv; SenderTimer])).
  - reflexivity.
  - vm_compute. reflexivity.
  - vm_compute. reflexivity.
Defined.
